(** * The MQTT fixed header codec of gomqtt ([packet/header.go])

    A shallow embedding of [headerLen], [headerEncode] and [headerDecode],
    together with the two routines of Go's [encoding/binary] they call
    ([PutUvarint] and [Uvarint]), and the properties of the header codec.

    Conventions.
    - A Go [byte] is a [Z] in [0, 256); a [uint64] is a [Z] in [0, 2^64);
      conversions between integer types are written out ([to_byte],
      [to_uint64], [to_int]).  Go's [int] is taken to be 64 bits wide.
    - A slice [[]byte] is a [list Z].  A slice expression [s[k:]] is
      [skipn k s]; since it aliases [s], a write through it is put back
      into [s] explicitly.
    - An index out of range makes the Go runtime panic: a function that
      indexes returns [option], [None] being the panic.
    - Go's [(..., error)] results are tuples whose last component is an
      [option error], [None] being [nil]. *)

From Stdlib Require Import ZArith List Lia Bool.
Import ListNotations.
Local Open Scope Z_scope.

(** ** Machine integers *)

(** [byte(x)]: conversion to an 8-bit unsigned integer. *)
Definition to_byte (x : Z) : Z := x mod 256.

(** [uint64(x)]: conversion to a 64-bit unsigned integer. *)
Definition to_uint64 (x : Z) : Z := x mod 2 ^ 64.

(** [int(x)] for [x : uint64]: reinterpretation as a 64-bit signed integer. *)
Definition to_int (x : Z) : Z :=
  let y := x mod 2 ^ 64 in if y <? 2 ^ 63 then y else y - 2 ^ 64.

Definition is_byte (b : Z) : Prop := 0 <= b < 256.

(** ** Slices *)

(** [len(s)]. *)
Definition len (s : list Z) : Z := Z.of_nat (length s).

(** [s[i] = v]; [None] when [i] is out of range. *)
Fixpoint store_at (s : list Z) (i : nat) (v : Z) : option (list Z) :=
  match s, i with
  | [], _ => None
  | _ :: rest, O => Some (v :: rest)
  | b :: rest, S j =>
      match store_at rest j v with
      | Some rest' => Some (b :: rest')
      | None => None
      end
  end.

Definition store (s : list Z) (i : Z) (v : Z) : option (list Z) :=
  if i <? 0 then None else store_at s (Z.to_nat i) v.

Notation "x <- c ;; k" :=
  (match c with Some x => k | None => None end)
  (at level 61, c at next level, right associativity).

(** ** Go's [encoding/binary]: unsigned base-128 varints *)

Definition MaxVarintLen64 : Z := 10.

(** [binary.PutUvarint(buf, x)]:
<<
    i := 0
    for x >= 0x80 { buf[i] = byte(x) | 0x80; x >>= 7; i++ }
    buf[i] = byte(x)
    return i + 1
>>
    The loop runs at most ten times on a [uint64]; [fuel] bounds it. *)
Fixpoint PutUvarint_loop (fuel : nat) (buf : list Z) (x i : Z)
  : option (list Z * Z) :=
  match fuel with
  | O => None
  | S fuel' =>
      if 0x80 <=? x then
        buf' <- store buf i (Z.lor (to_byte x) 0x80) ;;
        PutUvarint_loop fuel' buf' (Z.shiftr x 7) (i + 1)
      else
        buf' <- store buf i (to_byte x) ;;
        Some (buf', i + 1)
  end.

Definition PutUvarint (buf : list Z) (x : Z) : option (list Z * Z) :=
  PutUvarint_loop 10 buf x 0.

(** [binary.Uvarint(buf)]:
<<
    var x uint64
    var s uint
    for i, b := range buf {
        if i == MaxVarintLen64 { return 0, -(i + 1) }
        if b < 0x80 {
            if i == MaxVarintLen64-1 && b > 1 { return 0, -(i + 1) }
            return x | uint64(b)<<s, i + 1
        }
        x |= uint64(b&0x7f) << s
        s += 7
    }
    return 0, 0
>>
    (the routine as of Go 1.16; earlier releases lack the first test and
    report the overflow at the terminating byte, which changes the negative
    count returned and nothing else). *)
Fixpoint Uvarint_loop (buf : list Z) (x s i : Z) : Z * Z :=
  match buf with
  | [] => (0, 0)
  | b :: rest =>
      if i =? MaxVarintLen64 then (0, - (i + 1))
      else if b <? 0x80 then
        if (i =? MaxVarintLen64 - 1) && (1 <? b) then (0, - (i + 1))
        else (Z.lor x (to_uint64 (Z.shiftl b s)), i + 1)
      else
        Uvarint_loop rest (Z.lor x (to_uint64 (Z.shiftl (Z.land b 0x7f) s)))
                     (s + 7) (i + 1)
  end.

Definition Uvarint (buf : list Z) : Z * Z := Uvarint_loop buf 0 0 0.

(** ** [header.go] *)

Definition maxRemainingLength : Z := 268435455.

(** The error values [fmt.Errorf] builds, one constructor per message. *)
Inductive error : Set :=
| InsufficientBuffer (expected got : Z)
| RemainingLengthOutOfBound (rl : Z)
| InvalidType (decoded : Z)
| InvalidFlags (expected got : Z)
| ErrorReadingRemainingLength
| RemainingLengthExceedsBuffer (rl remaining : Z).

Definition headerLen (rl : Z) : Z :=
  let total := 1 in
  if rl <=? 127 then total + 1
  else if rl <=? 16383 then total + 2
  else if rl <=? 2097151 then total + 3
  else total + 4.

(** A packet type ([type Type byte]). *)
Definition PacketType : Set := Z.

Section Header.

(** [Type.defaultFlags] and the constant [PUBLISH] are declared next to
    the packet types, outside [header.go]; the codec is modelled for any
    such table. *)
Variable defaultFlags : PacketType -> Z.
Variable PUBLISH : PacketType.

Definition headerEncode (dst : list Z) (flags : Z) (rl tl : Z) (t : PacketType)
  : option (list Z * Z * option error) :=
  let total := 0 in
  (* check buffer length *)
  if len dst <? tl then
    Some (dst, total, Some (InsufficientBuffer tl (len dst)))
  (* check remaining length *)
  else if (maxRemainingLength <? rl) || (rl <? 0) then
    Some (dst, total, Some (RemainingLengthOutOfBound rl))
  else
    (* check header length *)
    let hl := headerLen rl in
    if len dst <? hl then
      Some (dst, total, Some (InsufficientBuffer hl (len dst)))
    else
      (* write type and flags *)
      let typeAndFlags :=
        Z.lor (to_byte (Z.shiftl t 4)) (Z.land (defaultFlags t) 0xf) in
      let typeAndFlags := Z.lor typeAndFlags flags in
      dst1 <- store dst total typeAndFlags ;;
      let total := total + 1 in
      (* write remaining length *)
      r <- PutUvarint (skipn (Z.to_nat total) dst1) (to_uint64 rl) ;;
      let '(buf, n) := r in
      let total' := total + n in
      Some (firstn (Z.to_nat total) dst1 ++ buf, total', None).

Definition headerDecode (src : list Z) (t : PacketType)
  : Z * Z * Z * option error :=
  let total := 0 in
  (* check buffer size *)
  if len src <? 2 then
    (total, 0, 0, Some (InsufficientBuffer 2 (len src)))
  else
    (* read type and flags *)
    let typeAndFlags := nth (Z.to_nat total) src 0 in
    let decodedType := Z.shiftr typeAndFlags 4 in
    let flags := Z.land typeAndFlags 0x0f in
    let total := total + 1 in
    (* check against static type *)
    if negb (decodedType =? t) then
      (total, 0, 0, Some (InvalidType decodedType))
    (* check flags except for publish packets *)
    else if negb (t =? PUBLISH) && negb (flags =? defaultFlags t) then
      (total, 0, 0, Some (InvalidFlags (defaultFlags t) flags))
    else
      (* read remaining length *)
      let '(_rl, m) := Uvarint (skipn (Z.to_nat total) src) in
      let rl := to_int _rl in
      let total := total + m in
      (* check resulting remaining length *)
      if m <=? 0 then
        (total, 0, 0, Some ErrorReadingRemainingLength)
      (* check remaining buffer *)
      else
        let remaining := len (skipn (Z.to_nat total) src) in
        if remaining <? rl then
          (total, 0, 0, Some (RemainingLengthExceedsBuffer rl remaining))
        else
          (total, flags, rl, None).

(** The type-and-flags byte [headerEncode] writes. *)
Definition typeAndFlags (flags : Z) (t : PacketType) : Z :=
  Z.lor (Z.lor (to_byte (Z.shiftl t 4)) (Z.land (defaultFlags t) 0xf)) flags.

End Header.

(** ** The MQTT 3.1.1 packet types *)

Module MQTT.

(** Modelled from the spec: the declarations of the packet type constants
    and of [Type.defaultFlags] are not in [header.go].  The spec lists the
    fourteen control packets in protocol order and frames DISCONNECT as
    [0xE0]; the table below is the protocol's assignment (type codes 1 to
    14; flags [0b0010] for PUBREL, SUBSCRIBE and UNSUBSCRIBE, 0 otherwise).
    The theorems on the codec hold for any table; this one instantiates
    them. *)
Definition CONNECT : PacketType := 1.
Definition CONNACK : PacketType := 2.
Definition PUBLISH : PacketType := 3.
Definition PUBACK : PacketType := 4.
Definition PUBREC : PacketType := 5.
Definition PUBREL : PacketType := 6.
Definition PUBCOMP : PacketType := 7.
Definition SUBSCRIBE : PacketType := 8.
Definition SUBACK : PacketType := 9.
Definition UNSUBSCRIBE : PacketType := 10.
Definition UNSUBACK : PacketType := 11.
Definition PINGREQ : PacketType := 12.
Definition PINGRESP : PacketType := 13.
Definition DISCONNECT : PacketType := 14.

Definition defaultFlags (t : PacketType) : Z :=
  if (t =? PUBREL) || (t =? SUBSCRIBE) || (t =? UNSUBSCRIBE) then 2 else 0.

Definition encode := headerEncode defaultFlags.
Definition decode := headerDecode defaultFlags PUBLISH.

End MQTT.

(** * Definitions used by the statements *)

(** The bytes [PutUvarint] produces for [x], as a list: the function that
    the loop computes in place. *)
Fixpoint uvarint_bytes (fuel : nat) (x : Z) : list Z :=
  match fuel with
  | O => []
  | S fuel' =>
      if 0x80 <=? x then Z.lor (to_byte x) 0x80 :: uvarint_bytes fuel' (Z.shiftr x 7)
      else [to_byte x]
  end.

(** ** The varint as the wire format describes it *)

(** The value of a sequence of 7-bit groups, least significant group
    first. *)
Fixpoint varint_value (bs : list Z) : Z :=
  match bs with
  | [] => 0
  | b :: rest => Z.land b 0x7f + 128 * varint_value rest
  end.

(** The continuation bit (bit 7) is set on every byte except the last. *)
Fixpoint continuation_bits (bs : list Z) : bool :=
  match bs with
  | [] => false
  | [b] => negb (Z.testbit b 7)
  | b :: rest => Z.testbit b 7 && continuation_bits rest
  end.

(** [bs] is a base-128 varint of [v]. *)
Definition is_varint_of (bs : list Z) (v : Z) : Prop :=
  Forall is_byte bs /\ continuation_bits bs = true /\ varint_value bs = v.

(** The size of the variable-length part by the thresholds of the wire
    format. *)
Definition varintLen_spec (rl : Z) : Z :=
  if rl <=? 127 then 1
  else if rl <=? 16383 then 2
  else if rl <=? 2097151 then 3
  else 4.

(** ** Outcomes *)

(** An encode result that carries an error. *)
Definition encode_fails (r : option (list Z * Z * option error)) : Prop :=
  exists dst n e, r = Some (dst, n, Some e).

(** A decode result that carries an error (flags and remaining length are
    then returned as 0). *)
Definition decode_fails (r : Z * Z * Z * option error) : Prop :=
  exists total e, r = (total, 0, 0, Some e).

(** Closed arithmetic and evaluation goals. *)
Ltac evaluate :=
  vm_compute; first [reflexivity | discriminate | intuition discriminate].

(** * Properties *)

(** ** Integer and bit facts *)

Lemma len_nonneg (s : list Z) : 0 <= len s.
Proof. unfold len; lia. Qed.

Lemma len_cons (b : Z) (s : list Z) : len (b :: s) = len s + 1.
Proof. unfold len; simpl length; lia. Qed.

Lemma len_app (s1 s2 : list Z) : len (s1 ++ s2) = len s1 + len s2.
Proof. unfold len; rewrite length_app; lia. Qed.

Lemma to_uint64_small (x : Z) : 0 <= x < 2 ^ 64 -> to_uint64 x = x.
Proof. intros H; unfold to_uint64; now apply Z.mod_small. Qed.

Lemma to_int_small (x : Z) : 0 <= x < 2 ^ 63 -> to_int x = x.
Proof.
  intros H; unfold to_int; cbv zeta.
  rewrite Z.mod_small by lia.
  destruct (Z.ltb_spec x (2 ^ 63)); lia.
Qed.

Lemma to_int_range (x : Z) : - 2 ^ 63 <= to_int x < 2 ^ 63.
Proof.
  unfold to_int; cbv zeta.
  pose proof (Z.mod_pos_bound x (2 ^ 64) ltac:(lia)) as Hb.
  destruct (Z.ltb_spec (x mod 2 ^ 64) (2 ^ 63)); lia.
Qed.

(** A value below [2^k] shares no bit with a value shifted left by [k]. *)
Lemma land_shiftl_disjoint (a b k : Z) :
  0 <= k -> 0 <= a < 2 ^ k -> Z.land a (Z.shiftl b k) = 0.
Proof.
  intros Hk Ha; apply Z.bits_inj'; intros n Hn.
  rewrite Z.land_spec, Z.bits_0.
  destruct (Z.lt_ge_cases n k) as [Hlt | Hge].
  - rewrite Z.shiftl_spec_low by assumption; apply andb_false_r.
  - replace (Z.testbit a n) with false; [reflexivity |].
    symmetry; destruct (Z.eq_dec a 0) as [-> | Hnz]; [apply Z.bits_0 |].
    apply Z.bits_above_log2; [lia |].
    apply Z.lt_le_trans with k; [apply Z.log2_lt_pow2; lia | assumption].
Qed.

Lemma lor_shiftl_add (a b k : Z) :
  0 <= k -> 0 <= a < 2 ^ k -> Z.lor a (Z.shiftl b k) = a + b * 2 ^ k.
Proof.
  intros Hk Ha.
  pose proof (Z.add_lor_land a (Z.shiftl b k)) as Hadd.
  rewrite land_shiftl_disjoint in Hadd by assumption.
  rewrite Z.shiftl_mul_pow2 in * by assumption; lia.
Qed.

Lemma lor_mul_pow2_add (a b k : Z) :
  0 <= k -> 0 <= a < 2 ^ k -> Z.lor a (b * 2 ^ k) = a + b * 2 ^ k.
Proof.
  intros Hk Ha; rewrite <- (lor_shiftl_add a b k Hk Ha).
  now rewrite Z.shiftl_mul_pow2.
Qed.

(** The byte [byte(x) | 0x80] that [PutUvarint] writes for a group that is
    not the last one: the low seven bits of [x] under the continuation bit. *)
Lemma continuation_byte (x : Z) :
  Z.lor (to_byte x) 0x80 = x mod 128 + 128.
Proof.
  unfold to_byte.
  assert (Hlow : forall r, 0 <= r < 128 -> Z.lor r 128 = r + 128).
  { intros r Hr. change 128 with (Z.shiftl 1 7) at 1.
    rewrite lor_shiftl_add; [reflexivity | lia | exact Hr]. }
  assert (Hsplit : x mod 256 = x mod 128 \/ x mod 256 = x mod 128 + 128)
    by (Z.to_euclidean_division_equations; lia).
  assert (Hr : 0 <= x mod 128 < 128) by (apply Z.mod_pos_bound; lia).
  destruct Hsplit as [-> | ->].
  - now apply Hlow.
  - rewrite <- (Hlow _ Hr), <- Z.lor_assoc. reflexivity.
Qed.

Lemma land_0x7f (b : Z) : Z.land b 0x7f = b mod 128.
Proof. change 0x7f with (Z.ones 7); now rewrite Z.land_ones by lia. Qed.

Lemma land_0x0f (b : Z) : Z.land b 0x0f = b mod 16.
Proof. change 0x0f with (Z.ones 4); now rewrite Z.land_ones by lia. Qed.

Lemma shiftr_4 (b : Z) : Z.shiftr b 4 = b / 16.
Proof. now rewrite Z.shiftr_div_pow2 by lia. Qed.

Lemma shiftr_7 (b : Z) : Z.shiftr b 7 = b / 128.
Proof. now rewrite Z.shiftr_div_pow2 by lia. Qed.

(** ** Writing into a slice *)

Lemma store_at_app (pre post : list Z) (m v : Z) :
  store_at (pre ++ m :: post) (length pre) v = Some (pre ++ v :: post).
Proof.
  induction pre as [| b pre IH]; simpl; [reflexivity | now rewrite IH].
Qed.

Lemma store_app (pre post : list Z) (m v : Z) :
  store (pre ++ m :: post) (len pre) v = Some (pre ++ v :: post).
Proof.
  unfold store, len.
  destruct (Z.ltb_spec (Z.of_nat (length pre)) 0); [lia |].
  rewrite Nat2Z.id; apply store_at_app.
Qed.

(** ** The bytes of a varint *)

(** [PutUvarint] overwrites a window [mid] of the buffer, of the size of the
    varint, and nothing else; it neither panics nor runs out of fuel. *)
Lemma PutUvarint_loop_writes (fuel : nat) :
  forall (x : Z) (pre mid post : list Z),
    0 <= x < 128 * 2 ^ (7 * Z.of_nat fuel) ->
    length mid = length (uvarint_bytes (S fuel) x) ->
    PutUvarint_loop (S fuel) (pre ++ mid ++ post) x (len pre)
    = Some (pre ++ uvarint_bytes (S fuel) x ++ post, len pre + len mid).
Proof.
  induction fuel as [| fuel IH]; intros x pre mid post Hx Hlen.
  - cbn [PutUvarint_loop uvarint_bytes] in Hlen |- *.
    change (128 * 2 ^ (7 * Z.of_nat 0)) with 128 in Hx.
    destruct (Z.leb_spec 0x80 x); [lia |].
    destruct mid as [| m [| ? ?]]; try discriminate.
    cbn [app]; rewrite store_app, len_cons; reflexivity.
  - remember (S fuel) as f eqn:Ef.
    cbn [PutUvarint_loop uvarint_bytes] in Hlen |- *.
    destruct (Z.leb_spec 0x80 x) as [Hge | Hlt].
    + destruct mid as [| m mid]; [discriminate |].
      cbn [app]; rewrite store_app.
      replace (pre ++ Z.lor (to_byte x) 128 :: mid ++ post)
        with ((pre ++ [Z.lor (to_byte x) 128]) ++ mid ++ post)
        by (now rewrite <- app_assoc).
      replace (len pre + 1) with (len (pre ++ [Z.lor (to_byte x) 128]))
        by (rewrite len_app; reflexivity).
      subst f; rewrite IH.
      * rewrite <- app_assoc, len_app, !len_cons. cbn [app].
        do 2 f_equal. change (len []) with 0. lia.
      * rewrite shiftr_7.
        replace (7 * Z.of_nat (S fuel)) with (7 + 7 * Z.of_nat fuel) in Hx by lia.
        rewrite Z.pow_add_r in Hx by lia.
        change (2 ^ 7) with 128 in Hx.
        pose proof (Z.pow_pos_nonneg 2 (7 * Z.of_nat fuel)) as Hp.
        split; [apply Z.div_pos; lia |].
        apply Z.div_lt_upper_bound; lia.
      * simpl in Hlen; now injection Hlen.
    + destruct mid as [| m [| ? ?]]; try discriminate.
      cbn [app]; rewrite store_app, len_cons; reflexivity.
Qed.

Lemma PutUvarint_writes (x : Z) (mid post : list Z) :
  0 <= x < 2 ^ 64 ->
  length mid = length (uvarint_bytes 10 x) ->
  PutUvarint (mid ++ post) x = Some (uvarint_bytes 10 x ++ post, len mid).
Proof.
  intros Hx Hlen; unfold PutUvarint.
  apply (PutUvarint_loop_writes 9 x [] mid post); [| exact Hlen].
  change (128 * 2 ^ (7 * Z.of_nat 9)) with (2 ^ 70).
  assert (2 ^ 64 < 2 ^ 70) by (apply Z.pow_lt_mono_r; lia). lia.
Qed.

(** The size of the varint of a legal remaining length is [headerLen]
    without the type-and-flags byte. *)
Lemma uvarint_bytes_len (rl : Z) :
  0 <= rl <= maxRemainingLength ->
  len (uvarint_bytes 10 rl) = headerLen rl - 1.
Proof.
  unfold maxRemainingLength, headerLen; intros Hrl; cbv zeta.
  do 4 (cbn [uvarint_bytes]; rewrite ?shiftr_7;
        match goal with
        | |- context [0x80 <=? ?e] => destruct (Z.leb_spec 0x80 e)
        end;
        [| repeat match goal with
                  | |- context [?a <=? ?b] => destruct (Z.leb_spec a b)
                  end;
           unfold len; simpl length;
           solve [lia | Z.to_euclidean_division_equations; lia]]).
  exfalso; Z.to_euclidean_division_equations; lia.
Qed.

(** ** Reading a varint back *)

(** Reading the bytes of [x] from position [i] with the groups read so far
    in [acc] adds [x], shifted to its place, and consumes exactly those
    bytes, whatever follows them. *)
Lemma Uvarint_loop_bytes (fuel : nat) :
  forall (x acc i : Z) (rest : list Z),
    0 <= i <= 9 ->
    0 <= acc < 2 ^ (7 * i) ->
    0 <= x < 128 * 2 ^ (7 * Z.of_nat fuel) ->
    x * 2 ^ (7 * i) < 2 ^ 63 ->
    Uvarint_loop (uvarint_bytes (S fuel) x ++ rest) acc (7 * i) i
    = (acc + x * 2 ^ (7 * i), i + len (uvarint_bytes (S fuel) x)).
Proof.
  induction fuel as [| fuel IH]; intros x acc i rest Hi Hacc Hx Hfit.
  - change (128 * 2 ^ (7 * Z.of_nat 0)) with 128 in Hx.
    cbn [uvarint_bytes].
    destruct (Z.leb_spec 0x80 x); [lia |].
    unfold to_byte; rewrite (Z.mod_small x 256) by lia.
    cbn [app Uvarint_loop]; unfold MaxVarintLen64.
    destruct (Z.eqb_spec i 10); [lia |].
    destruct (Z.ltb_spec x 0x80); [| lia].
    assert (Hpow : 0 < 2 ^ (7 * i)) by (apply Z.pow_pos_nonneg; lia).
    assert (Hno : (i =? 10 - 1) && (1 <? x) = false).
    { destruct (Z.eqb_spec i (10 - 1)) as [-> | ?]; [| reflexivity].
      destruct (Z.ltb_spec 1 x); [| reflexivity].
      change (7 * (10 - 1)) with 63 in Hfit. nia. }
    rewrite Hno, Z.shiftl_mul_pow2 by lia.
    assert (2 ^ 63 < 2 ^ 64) by (apply Z.pow_lt_mono_r; lia).
    rewrite to_uint64_small by nia.
    rewrite lor_mul_pow2_add by lia.
    f_equal; unfold len; simpl length; lia.
  - remember (S fuel) as f eqn:Ef.
    cbn [uvarint_bytes].
    destruct (Z.leb_spec 0x80 x) as [Hge | Hlt].
    + rewrite continuation_byte, shiftr_7.
      assert (Hr : 0 <= x mod 128 < 128) by (apply Z.mod_pos_bound; lia).
      assert (Hq : 0 <= x / 128) by (apply Z.div_pos; lia).
      assert (Hdm : x = 128 * (x / 128) + x mod 128) by (apply Z.div_mod; lia).
      assert (Hpow : 0 < 2 ^ (7 * i)) by (apply Z.pow_pos_nonneg; lia).
      assert (Hpow' : 2 ^ (7 * (i + 1)) = 128 * 2 ^ (7 * i)).
      { replace (7 * (i + 1)) with (7 + 7 * i) by lia.
        rewrite Z.pow_add_r by lia. reflexivity. }
      assert (H64 : 2 ^ 64 = 2 * 2 ^ 63) by reflexivity.
      assert (Hi' : i <= 7).
      { destruct (Z.le_gt_cases i 7) as [? | Hgt]; [assumption | exfalso].
        assert (2 ^ 56 <= 2 ^ (7 * i)) by (apply Z.pow_le_mono_r; lia).
        assert (2 ^ 63 = 128 * 2 ^ 56) by reflexivity. nia. }
      cbn [app Uvarint_loop]; unfold MaxVarintLen64.
      destruct (Z.eqb_spec i 10); [lia |].
      destruct (Z.ltb_spec (x mod 128 + 128) 0x80); [lia |].
      rewrite land_0x7f.
      replace ((x mod 128 + 128) mod 128) with (x mod 128)
        by (Z.to_euclidean_division_equations; lia).
      rewrite Z.shiftl_mul_pow2 by lia.
      rewrite to_uint64_small by nia.
      rewrite lor_mul_pow2_add by lia.
      replace (7 * i + 7) with (7 * (i + 1)) by lia.
      subst f; rewrite IH.
      * rewrite Hpow', len_cons. f_equal; [| lia].
        clear - Hdm. remember (x / 128) as q. remember (x mod 128) as r.
        rewrite Hdm; ring.
      * lia.
      * rewrite Hpow'. nia.
      * replace (7 * Z.of_nat (S fuel)) with (7 + 7 * Z.of_nat fuel) in Hx by lia.
        rewrite Z.pow_add_r in Hx by lia. change (2 ^ 7) with 128 in Hx.
        split; [assumption |].
        apply Z.div_lt_upper_bound; lia.
      * rewrite Hpow'. nia.
    + unfold to_byte; rewrite (Z.mod_small x 256) by lia.
      cbn [app Uvarint_loop]; unfold MaxVarintLen64.
      destruct (Z.eqb_spec i 10); [lia |].
      destruct (Z.ltb_spec x 0x80); [| lia].
      assert (Hpow : 0 < 2 ^ (7 * i)) by (apply Z.pow_pos_nonneg; lia).
      assert (Hno : (i =? 10 - 1) && (1 <? x) = false).
      { destruct (Z.eqb_spec i (10 - 1)) as [-> | ?]; [| reflexivity].
        destruct (Z.ltb_spec 1 x); [| reflexivity].
        change (7 * (10 - 1)) with 63 in Hfit. nia. }
      rewrite Hno, Z.shiftl_mul_pow2 by lia.
      assert (2 ^ 63 < 2 ^ 64) by (apply Z.pow_lt_mono_r; lia).
      rewrite to_uint64_small by nia.
      rewrite lor_mul_pow2_add by lia.
      f_equal; unfold len; simpl length; lia.
Qed.

(** [Uvarint] inverts [PutUvarint] on every value below [2^63]. *)
Lemma Uvarint_uvarint_bytes (x : Z) (rest : list Z) :
  0 <= x < 2 ^ 63 ->
  Uvarint (uvarint_bytes 10 x ++ rest) = (x, len (uvarint_bytes 10 x)).
Proof.
  intros Hx; unfold Uvarint.
  pose proof (Uvarint_loop_bytes 9 x 0 0 rest) as H.
  change (7 * 0) with 0 in H. change (2 ^ 0) with 1 in H.
  rewrite H; [f_equal; lia | lia | lia | | lia].
  change (128 * 2 ^ (7 * Z.of_nat 9)) with (2 ^ 70).
  assert (2 ^ 63 < 2 ^ 70) by (apply Z.pow_lt_mono_r; lia). lia.
Qed.

(** ** The bytes written are a varint *)

Lemma testbit_7_low (b : Z) : 0 <= b < 128 -> Z.testbit b 7 = false.
Proof.
  intros Hb; apply Z.testbit_false; [lia |].
  change (2 ^ 7) with 128; rewrite Z.div_small by lia; reflexivity.
Qed.

Lemma testbit_7_high (b : Z) : 128 <= b < 256 -> Z.testbit b 7 = true.
Proof.
  intros Hb; apply Z.testbit_true; [lia |].
  change (2 ^ 7) with 128. Z.to_euclidean_division_equations; lia.
Qed.

Lemma uvarint_bytes_is_varint (fuel : nat) :
  forall x : Z,
    0 <= x < 128 * 2 ^ (7 * Z.of_nat fuel) ->
    is_varint_of (uvarint_bytes (S fuel) x) x.
Proof.
  unfold is_varint_of.
  induction fuel as [| fuel IH]; intros x Hx.
  - change (128 * 2 ^ (7 * Z.of_nat 0)) with 128 in Hx.
    cbn [uvarint_bytes]. destruct (Z.leb_spec 0x80 x); [lia |].
    unfold to_byte; rewrite (Z.mod_small x 256) by lia.
    cbn [continuation_bits varint_value].
    rewrite testbit_7_low, land_0x7f, Z.mod_small by lia.
    repeat split; [| lia].
    constructor; [unfold is_byte; lia | constructor].
  - remember (S fuel) as f eqn:Ef. cbn [uvarint_bytes].
    assert (Hr : 0 <= x mod 128 < 128) by (apply Z.mod_pos_bound; lia).
    destruct (Z.leb_spec 0x80 x) as [Hge | Hlt].
    + rewrite continuation_byte, shiftr_7.
      assert (Hq : 0 <= x / 128 < 128 * 2 ^ (7 * Z.of_nat fuel)).
      { replace (7 * Z.of_nat f) with (7 + 7 * Z.of_nat fuel) in Hx by lia.
        rewrite Z.pow_add_r in Hx by lia. change (2 ^ 7) with 128 in Hx.
        split; [apply Z.div_pos; lia | apply Z.div_lt_upper_bound; lia]. }
      subst f. destruct (IH (x / 128) Hq) as (Hbytes & Hcont & Hval).
      repeat split.
      * constructor; [unfold is_byte; lia | exact Hbytes].
      * change (continuation_bits (?b :: uvarint_bytes (S fuel) ?y))
          with (match uvarint_bytes (S fuel) y with
                | [] => negb (Z.testbit b 7)
                | _ :: _ => Z.testbit b 7 && continuation_bits (uvarint_bytes (S fuel) y)
                end).
        destruct (uvarint_bytes (S fuel) (x / 128)); [discriminate Hcont |].
        rewrite testbit_7_high by lia. exact Hcont.
      * cbn [varint_value]. rewrite Hval, land_0x7f.
        Z.to_euclidean_division_equations; lia.
    + unfold to_byte; rewrite (Z.mod_small x 256) by lia.
      cbn [continuation_bits varint_value].
      rewrite testbit_7_low, land_0x7f, Z.mod_small by lia.
      repeat split; [| lia].
      constructor; [unfold is_byte; lia | constructor].
Qed.

Lemma headerLen_thresholds (rl : Z) : headerLen rl = 1 + varintLen_spec rl.
Proof.
  unfold headerLen, varintLen_spec; cbv zeta.
  repeat match goal with
         | |- context [?a <=? ?b] => destruct (Z.leb_spec a b)
         end; reflexivity.
Qed.

(** ** What [Uvarint] consumes and rejects *)

(** [Uvarint] never reports more bytes than the buffer holds, so the slice
    [src[total:]] taken after a successful read is in range. *)
Lemma Uvarint_loop_consumed (buf : list Z) :
  forall x s i, 0 <= i -> snd (Uvarint_loop buf x s i) <= i + len buf.
Proof.
  induction buf as [| b rest IH]; intros x s i Hi; cbn [Uvarint_loop].
  - simpl; change (len []) with 0; lia.
  - rewrite len_cons. pose proof (len_nonneg rest).
    destruct (i =? MaxVarintLen64); [simpl; lia |].
    destruct (b <? 0x80).
    + destruct ((i =? MaxVarintLen64 - 1) && (1 <? b)); simpl; lia.
    + specialize (IH (Z.lor x (to_uint64 (Z.shiftl (Z.land b 127) s)))
                     (s + 7) (i + 1)).
      lia.
Qed.

Lemma Uvarint_consumed (buf : list Z) (x m : Z) :
  Uvarint buf = (x, m) -> m <= len buf.
Proof.
  unfold Uvarint; intros H.
  pose proof (Uvarint_loop_consumed buf 0 0 0 ltac:(lia)) as Hc.
  rewrite H in Hc; simpl in Hc. lia.
Qed.

(** A varint whose bytes all carry the continuation bit, up to the end of
    the buffer or through the tenth byte, is rejected. *)
Lemma Uvarint_loop_unterminated (buf : list Z) :
  forall x s i,
    0 <= i <= 10 ->
    Forall (fun b => 0x80 <= b) (firstn (Z.to_nat (10 - i)) buf) ->
    snd (Uvarint_loop buf x s i) <= 0.
Proof.
  induction buf as [| b rest IH]; intros x s i Hi Hall; cbn [Uvarint_loop].
  - simpl; lia.
  - unfold MaxVarintLen64.
    destruct (Z.eqb_spec i 10) as [-> | Hne]; [simpl; lia |].
    replace (Z.to_nat (10 - i)) with (S (Z.to_nat (10 - (i + 1)))) in Hall by lia.
    cbn [firstn] in Hall. inversion Hall as [| ? ? Hb Hrest]; subst.
    destruct (Z.ltb_spec b 0x80); [lia |].
    apply IH; [lia | exact Hrest].
Qed.

(** ** Nibbles *)

Lemma lor_nibble (a b : Z) : 0 <= a < 16 -> 0 <= b < 16 -> 0 <= Z.lor a b < 16.
Proof.
  intros Ha Hb.
  assert (Hnn : 0 <= Z.lor a b) by (apply Z.lor_nonneg; lia).
  split; [exact Hnn |].
  destruct (Z.eq_dec (Z.lor a b) 0) as [-> | Hnz]; [lia |].
  change 16 with (2 ^ 4). apply Z.log2_lt_pow2; [lia |].
  rewrite Z.log2_lor by lia.
  apply Z.max_lub_lt.
  - destruct (Z.eq_dec a 0) as [-> | ?]; [reflexivity |].
    apply Z.log2_lt_pow2; lia.
  - destruct (Z.eq_dec b 0) as [-> | ?]; [reflexivity |].
    apply Z.log2_lt_pow2; lia.
Qed.

(** A byte assembled from a type nibble and a flags nibble splits back into
    them. *)
Lemma type_flags_byte (t f : Z) :
  0 <= t <= 15 -> 0 <= f < 16 ->
  Z.shiftr (Z.lor (to_byte (Z.shiftl t 4)) f) 4 = t /\
  Z.land (Z.lor (to_byte (Z.shiftl t 4)) f) 0x0f = f.
Proof.
  intros Ht Hf.
  assert (E : Z.lor (to_byte (Z.shiftl t 4)) f = f + t * 2 ^ 4).
  { rewrite Z.shiftl_mul_pow2 by lia. unfold to_byte.
    rewrite Z.mod_small by (change (2 ^ 4) with 16; lia).
    rewrite Z.lor_comm.
    apply lor_mul_pow2_add; [lia | change (2 ^ 4) with 16; lia]. }
  rewrite E, shiftr_4, land_0x0f. change (2 ^ 4) with 16.
  split; Z.to_euclidean_division_equations; lia.
Qed.

Lemma len_skipn (k : nat) (s : list Z) : len (skipn k s) = len s - Z.of_nat (Nat.min k (length s)).
Proof. unfold len; rewrite length_skipn; lia. Qed.

(** ** The header codec *)

Section HeaderProperties.

Variable defaultFlags : PacketType -> Z.
Variable PUBLISH : PacketType.

(** When its three checks pass, [headerEncode] does not panic: it writes
    the type-and-flags byte and the varint at the front of [dst], leaves
    the rest of [dst] as it was, and returns [headerLen rl]. *)
Lemma headerEncode_ok (dst : list Z) (flags rl tl : Z) (t : PacketType) :
  tl <= len dst ->
  0 <= rl <= maxRemainingLength ->
  headerLen rl <= len dst ->
  headerEncode defaultFlags dst flags rl tl t
  = Some (typeAndFlags defaultFlags flags t :: uvarint_bytes 10 rl
            ++ skipn (Z.to_nat (headerLen rl)) dst,
          headerLen rl, None).
Proof.
  intros Htl Hrl Hhl.
  pose proof (uvarint_bytes_len rl Hrl) as Hn.
  assert (Hmax : maxRemainingLength < 2 ^ 64) by reflexivity.
  unfold headerEncode; cbv zeta.
  destruct (Z.ltb_spec (len dst) tl); [lia |].
  destruct (Z.ltb_spec maxRemainingLength rl); [lia |].
  destruct (Z.ltb_spec rl 0); [lia |].
  destruct (Z.ltb_spec (len dst) (headerLen rl)); [lia |].
  cbn [orb].
  destruct dst as [| d0 d'].
  { pose proof (len_nonneg (uvarint_bytes 10 rl)).
    change (len []) with 0 in *; lia. }
  rewrite len_cons in Hhl.
  change (store (d0 :: d') 0 ?v) with (Some (v :: d')).
  change (Z.to_nat (0 + 1)) with 1%nat.
  cbn [skipn firstn app].
  rewrite to_uint64_small by lia.
  unfold len in Hn, Hhl.
  remember (length (uvarint_bytes 10 rl)) as n eqn:En.
  replace (Z.to_nat (headerLen rl)) with (S n) by lia.
  cbn [skipn].
  assert (Hmid : length (firstn n d') = n) by (apply firstn_length_le; lia).
  rewrite <- (firstn_skipn n d') at 1.
  rewrite PutUvarint_writes; [| lia | congruence].
  unfold typeAndFlags, len; rewrite Hmid.
  replace (0 + 1 + Z.of_nat n) with (headerLen rl) by lia.
  reflexivity.
Qed.

(** The three early returns of [headerEncode]. *)
Lemma headerEncode_error (dst : list Z) (flags rl tl : Z) (t : PacketType) :
  len dst < tl \/ rl < 0 \/ maxRemainingLength < rl \/ len dst < headerLen rl ->
  exists e, headerEncode defaultFlags dst flags rl tl t = Some (dst, 0, Some e).
Proof.
  intros H; unfold headerEncode; cbv zeta.
  destruct (Z.ltb_spec (len dst) tl); [eauto |].
  destruct (Z.ltb_spec maxRemainingLength rl); [cbn [orb]; eauto |].
  destruct (Z.ltb_spec rl 0); [cbn [orb]; eauto |].
  cbn [orb].
  destruct (Z.ltb_spec (len dst) (headerLen rl)); [eauto | lia].
Qed.

(** *** Encoding *)

(** C10. Whenever [headerEncode] returns an error, the count it returns
    is 0 and the destination buffer is the one it was given: every error
    return precedes the first write. *)
Theorem headerEncode_error_leaves_dst (dst : list Z) (flags rl tl : Z)
    (t : PacketType) (dst' : list Z) (n : Z) (e : error) :
  headerEncode defaultFlags dst flags rl tl t = Some (dst', n, Some e) ->
  n = 0 /\ dst' = dst.
Proof.
  unfold headerEncode; cbv zeta.
  destruct (len dst <? tl); [intros [= <- <- _]; auto |].
  destruct ((maxRemainingLength <? rl) || (rl <? 0));
    [intros [= <- <- _]; auto |].
  destruct (len dst <? headerLen rl); [intros [= <- <- _]; auto |].
  destruct (store dst 0 _) as [dst1 |]; [| discriminate].
  destruct (PutUvarint _ _) as [[buf m] |]; discriminate.
Qed.

(** C2. For a remaining length between 0 and 268435455 and a buffer that
    passes the size checks, [headerEncode] returns [headerLen rl] and the
    bytes it has written are exactly that many: the type-and-flags byte,
    then the base-128 varint of [rl], whose length is 1, 2, 3 or 4 bytes by
    the thresholds 127, 16383 and 2097151; the bytes of the buffer past the
    header are untouched. *)
Theorem headerEncode_writes_headerLen (dst : list Z) (flags rl tl : Z)
    (t : PacketType) :
  0 <= rl <= maxRemainingLength ->
  tl <= len dst ->
  headerLen rl <= len dst ->
  exists vs,
    headerEncode defaultFlags dst flags rl tl t
    = Some (Z.lor (Z.lor (to_byte (Z.shiftl t 4))
                         (Z.land (defaultFlags t) 0x0f)) flags
              :: vs ++ skipn (Z.to_nat (headerLen rl)) dst,
            headerLen rl, None)
    /\ is_varint_of vs rl
    /\ len vs = varintLen_spec rl
    /\ headerLen rl = 1 + varintLen_spec rl.
Proof.
  intros Hrl Htl Hhl.
  exists (uvarint_bytes 10 rl).
  split; [now apply headerEncode_ok |].
  split.
  { apply (uvarint_bytes_is_varint 9).
    change (128 * 2 ^ (7 * Z.of_nat 9)) with 1180591620717411303424.
    unfold maxRemainingLength in Hrl. lia. }
  pose proof (headerLen_thresholds rl) as Hth.
  rewrite uvarint_bytes_len by assumption. lia.
Qed.

(** C3 (amended). [headerEncode] fails exactly when the destination
    buffer is smaller than the total length [tl] passed by the caller,
    the remaining length is negative or exceeds 268435455, or the buffer
    is smaller than the computed header length; it never panics.  On
    success the first output byte is
    [(type << 4) | ((defaultFlags & 0x0f) | flags)], which is
    [(type << 4) | (defaultFlags | flags)] when the default flags fit in
    a nibble, and the following bytes, up to the returned count, are the
    remaining length as a base-128 varint: little-endian 7-bit groups,
    the continuation bit set on every byte except the last. *)
Theorem headerEncode_fails_iff (dst : list Z) (flags rl tl : Z)
    (t : PacketType) :
  (encode_fails (headerEncode defaultFlags dst flags rl tl t) <->
     len dst < tl \/ rl < 0 \/ maxRemainingLength < rl
     \/ len dst < headerLen rl)
  /\ headerEncode defaultFlags dst flags rl tl t <> None
  /\ (forall dst' n,
        headerEncode defaultFlags dst flags rl tl t = Some (dst', n, None) ->
        exists b0 vs,
          firstn (Z.to_nat n) dst' = b0 :: vs
          /\ b0 = Z.lor (to_byte (Z.shiftl t 4))
                        (Z.lor (Z.land (defaultFlags t) 0x0f) flags)
          /\ (0 <= defaultFlags t <= 15 ->
              b0 = Z.lor (to_byte (Z.shiftl t 4))
                         (Z.lor (defaultFlags t) flags))
          /\ is_varint_of vs rl).
Proof.
  assert (Hcases :
    (len dst < tl \/ rl < 0 \/ maxRemainingLength < rl
     \/ len dst < headerLen rl)
    \/ (tl <= len dst /\ 0 <= rl <= maxRemainingLength
        /\ headerLen rl <= len dst)) by lia.
  destruct Hcases as [Hbad | (Htl & Hrl & Hhl)].
  - destruct (headerEncode_error dst flags rl tl t Hbad) as [e He].
    rewrite He. split; [| split].
    + split; [intros _; exact Hbad | intros _; now exists dst, 0, e].
    + discriminate.
    + intros dst' n H; discriminate H.
  - rewrite (headerEncode_ok dst flags rl tl t Htl Hrl Hhl).
    split; [| split].
    + split; [intros (d & k & e & H); discriminate H | lia].
    + discriminate.
    + intros dst' n H.
      assert (Hd : dst' = typeAndFlags defaultFlags flags t :: uvarint_bytes 10 rl
                            ++ skipn (Z.to_nat (headerLen rl)) dst)
        by congruence.
      assert (Hk : n = headerLen rl) by congruence.
      clear H; subst dst' n.
      exists (typeAndFlags defaultFlags flags t), (uvarint_bytes 10 rl).
      assert (Hsz : Z.to_nat (headerLen rl)
                    = S (length (uvarint_bytes 10 rl))).
      { pose proof (uvarint_bytes_len rl Hrl) as Hn.
        unfold len in Hn; lia. }
      split; [| split; [| split]].
      * rewrite Hsz; cbn [firstn]; f_equal.
        rewrite firstn_app, firstn_all, Nat.sub_diag; cbn [firstn].
        apply app_nil_r.
      * unfold typeAndFlags; symmetry; apply Z.lor_assoc.
      * intros Hdf. unfold typeAndFlags. rewrite <- Z.lor_assoc.
        rewrite land_0x0f, Z.mod_small by lia. reflexivity.
      * apply (uvarint_bytes_is_varint 9).
        change (128 * 2 ^ (7 * Z.of_nat 9)) with 1180591620717411303424.
        unfold maxRemainingLength in Hrl. lia.
Qed.

(** *** Decoding *)

(** C4. [headerDecode] returns an error whenever its source buffer holds
    fewer than 2 bytes, and whenever the type in the high nibble of the
    first byte differs from the expected type. *)
Theorem headerDecode_short_or_wrong_type (src : list Z) (t : PacketType) :
  len src < 2 \/ Z.shiftr (nth 0 src 0) 4 <> t ->
  decode_fails (headerDecode defaultFlags PUBLISH src t).
Proof.
  intros H; unfold headerDecode, decode_fails; cbv zeta.
  destruct (Z.ltb_spec (len src) 2) as [Hlt | Hge];
    [eexists; eexists; reflexivity |].
  destruct H as [H | H]; [lia |].
  change (Z.to_nat 0) with 0%nat.
  destruct (Z.eqb_spec (Z.shiftr (nth 0 src 0) 4) t) as [E | E];
    [contradiction |].
  cbn [negb]. eexists; eexists; reflexivity.
Qed.

(** C5. For a type other than PUBLISH, [headerDecode] returns an error
    when the flags nibble of the first byte differs from the type's
    default flags.  For PUBLISH the flags nibble is not checked: a
    successful decode returns the nibble as it stands in the first byte,
    and whether the decode succeeds, what it consumes and the remaining
    length it returns do not depend on that nibble. *)
Theorem headerDecode_flags_check :
  (forall (src : list Z) (t : PacketType),
      t <> PUBLISH ->
      Z.land (nth 0 src 0) 0x0f <> defaultFlags t ->
      decode_fails (headerDecode defaultFlags PUBLISH src t))
  /\ (forall (b : Z) (rest : list Z) (total flags rl : Z),
        headerDecode defaultFlags PUBLISH (b :: rest) PUBLISH
        = (total, flags, rl, None) ->
        flags = Z.land b 0x0f)
  /\ (forall (b b' : Z) (rest : list Z) (total flags rl : Z),
        Z.shiftr b' 4 = Z.shiftr b 4 ->
        headerDecode defaultFlags PUBLISH (b :: rest) PUBLISH
        = (total, flags, rl, None) ->
        headerDecode defaultFlags PUBLISH (b' :: rest) PUBLISH
        = (total, Z.land b' 0x0f, rl, None)).
Proof.
  split; [| split].
  - intros src t Ht Hf; unfold headerDecode, decode_fails; cbv zeta.
    destruct (len src <? 2); [eexists; eexists; reflexivity |].
    change (Z.to_nat 0) with 0%nat.
    destruct (negb (Z.shiftr (nth 0 src 0) 4 =? t));
      [eexists; eexists; reflexivity |].
    destruct (Z.eqb_spec t PUBLISH); [contradiction |].
    destruct (Z.eqb_spec (Z.land (nth 0 src 0) 15) (defaultFlags t));
      [contradiction |].
    cbn [negb andb]. eexists; eexists; reflexivity.
  - intros b rest total flags rl; unfold headerDecode; cbv zeta.
    destruct (len (b :: rest) <? 2); [congruence |].
    change (nth (Z.to_nat 0) (b :: rest) 0) with b.
    destruct (negb (Z.shiftr b 4 =? PUBLISH)); [congruence |].
    destruct (negb (PUBLISH =? PUBLISH)
              && negb (Z.land b 15 =? defaultFlags PUBLISH));
      [congruence |].
    destruct (Uvarint _) as [x m].
    destruct (m <=? 0); [congruence |].
    destruct (_ <? _); congruence.
  - intros b b' rest total flags rl Hb; unfold headerDecode; cbv zeta.
    rewrite !len_cons.
    destruct (len rest + 1 <? 2); [congruence |].
    change (nth (Z.to_nat 0) (b :: rest) 0) with b.
    change (nth (Z.to_nat 0) (b' :: rest) 0) with b'.
    rewrite Hb.
    destruct (negb (Z.shiftr b 4 =? PUBLISH)); [congruence |].
    rewrite Z.eqb_refl; cbn [negb andb].
    change (Z.to_nat (0 + 1)) with 1%nat; cbn [skipn].
    destruct (Uvarint rest) as [x m].
    destruct (Z.leb_spec m 0) as [Hm | Hm]; [congruence |].
    replace (Z.to_nat (0 + 1 + m)) with (S (Z.to_nat m)) by lia.
    cbn [skipn].
    destruct (_ <? _); congruence.
Qed.

(** C6 (amended). [headerDecode] returns an error on a remaining-length
    varint that does not terminate: when every byte after the first
    carries the continuation bit up to the end of the buffer, or through
    the tenth byte of the varint. *)
Theorem headerDecode_unterminated_varint (src : list Z) (t : PacketType) :
  Forall (fun b => 0x80 <= b) (firstn 10 (skipn 1 src)) ->
  decode_fails (headerDecode defaultFlags PUBLISH src t).
Proof.
  intros Hall; unfold headerDecode, decode_fails; cbv zeta.
  destruct (len src <? 2); [eexists; eexists; reflexivity |].
  destruct (negb _); [eexists; eexists; reflexivity |].
  destruct (negb _ && negb _); [eexists; eexists; reflexivity |].
  change (Z.to_nat (0 + 1)) with 1%nat.
  pose proof (Uvarint_loop_unterminated (skipn 1 src) 0 0 0 ltac:(lia) Hall)
    as Hm.
  fold (Uvarint (skipn 1 src)) in Hm.
  destruct (Uvarint (skipn 1 src)) as [x m]. cbn [snd] in Hm.
  destruct (Z.leb_spec m 0); [| lia].
  eexists; eexists; reflexivity.
Qed.

(** X1. What a successful decode guarantees: the count consumed is at
    least 2 and lies within the buffer, and the remaining length returned
    is at most the number of bytes left after the header (and at least
    [-2^63], the smallest [int]). *)
Lemma headerDecode_success_bounds (src : list Z) (t : PacketType)
    (total flags rl : Z) :
  headerDecode defaultFlags PUBLISH src t = (total, flags, rl, None) ->
  2 <= total <= len src /\ - 2 ^ 63 <= rl <= len src - total.
Proof.
  unfold headerDecode; cbv zeta.
  destruct (len src <? 2); [congruence |].
  destruct (negb _); [congruence |].
  destruct (negb _ && negb _); [congruence |].
  change (Z.to_nat (0 + 1)) with 1%nat.
  destruct (Uvarint (skipn 1 src)) as [x m] eqn:Hu.
  destruct (Z.leb_spec m 0) as [Hm | Hm]; [congruence |].
  pose proof (Uvarint_consumed _ _ _ Hu) as Hc.
  pose proof (to_int_range x) as Hx.
  assert (Hrem : len (skipn (Z.to_nat (0 + 1 + m)) src) = len src - (1 + m)).
  { rewrite len_skipn in Hc |- *. unfold len in *. lia. }
  rewrite Hrem.
  destruct (Z.ltb_spec (len src - (1 + m)) (to_int x)) as [Hlt | Hge];
    [congruence |].
  intros H.
  assert (Ht : total = 0 + 1 + m) by congruence.
  assert (Hr : rl = to_int x) by congruence.
  rewrite len_skipn in Hc. unfold len in *. lia.
Qed.


(** C9. With 0 as the default flags of DISCONNECT, decoding the two bytes
    [0xE0, 0x00] as a DISCONNECT header succeeds, consumes exactly 2
    bytes and returns remaining length 0; decoding [0xE0, 0x01] as a
    DISCONNECT header returns an error. *)
Theorem headerDecode_disconnect :
  defaultFlags MQTT.DISCONNECT = 0 ->
  headerDecode defaultFlags PUBLISH [0xE0; 0x00] MQTT.DISCONNECT
  = (2, 0, 0, None)
  /\ decode_fails
       (headerDecode defaultFlags PUBLISH [0xE0; 0x01] MQTT.DISCONNECT).
Proof.
  intros Hdf; unfold headerDecode, decode_fails, MQTT.DISCONNECT in *.
  cbv zeta.
  change (len [224; 0] <? 2) with false.
  change (len [224; 1] <? 2) with false.
  change (nth (Z.to_nat 0) [224; 0] 0) with 224.
  change (nth (Z.to_nat 0) [224; 1] 0) with 224.
  change (Z.shiftr 224 4) with 14. change (Z.land 224 15) with 0.
  rewrite Hdf. change (negb (14 =? 14)) with false. cbv iota.
  change (negb (0 =? 0)) with false. rewrite andb_false_r.
  split; [reflexivity |].
  eexists; eexists; reflexivity.
Qed.

(** C1 (amended). For a remaining length between 0 and 268435455, a type
    and flags that fit in a nibble each, flags that add nothing to the
    type's default flags unless the type is PUBLISH, and a buffer with
    room for the header and [rl] further bytes: [headerEncode] succeeds,
    and [headerDecode] of the resulting buffer, for the same type,
    succeeds, consumes [headerLen rl] bytes and returns the remaining
    length [rl]. *)
Theorem headerEncode_headerDecode (dst : list Z) (flags rl tl : Z)
    (t : PacketType) :
  0 <= rl <= maxRemainingLength ->
  0 <= t <= 15 ->
  0 <= flags <= 15 ->
  t = PUBLISH
  \/ Z.lor (Z.land (defaultFlags t) 0x0f) flags = defaultFlags t ->
  tl <= len dst ->
  headerLen rl + rl <= len dst ->
  exists dst',
    headerEncode defaultFlags dst flags rl tl t
    = Some (dst', headerLen rl, None)
    /\ headerDecode defaultFlags PUBLISH dst' t
       = (headerLen rl, Z.lor (Z.land (defaultFlags t) 0x0f) flags, rl, None).
Proof.
  intros Hrl Ht Hf Hfl Htl Hroom.
  rewrite (headerEncode_ok dst flags rl tl t Htl Hrl) by lia.
  eexists; split; [reflexivity |].
  pose proof (uvarint_bytes_len rl Hrl) as Hn.
  pose proof (headerLen_thresholds rl) as Hth.
  assert (Hvl : 1 <= varintLen_spec rl <= 4).
  { unfold varintLen_spec.
    repeat match goal with
           | |- context [?a <=? ?b] => destruct (Z.leb_spec a b)
           end; lia. }
  set (bytes := uvarint_bytes 10 rl) in *.
  set (rest := skipn (Z.to_nat (headerLen rl)) dst).
  set (nib := Z.lor (Z.land (defaultFlags t) 15) flags) in *.
  assert (Hrest : len rest = len dst - headerLen rl).
  { unfold rest. rewrite len_skipn. unfold len in *. lia. }
  assert (Hnib : 0 <= nib < 16).
  { apply lor_nibble; [| lia].
    rewrite land_0x0f. apply Z.mod_pos_bound; lia. }
  assert (Hb0 : typeAndFlags defaultFlags flags t = Z.lor (to_byte (Z.shiftl t 4)) nib).
  { unfold typeAndFlags, nib. symmetry; apply Z.lor_assoc. }
  destruct (type_flags_byte t nib Ht Hnib) as [Hhi Hlo].
  rewrite Hb0.
  unfold headerDecode; cbv zeta.
  rewrite len_cons, len_app.
  destruct (Z.ltb_spec (len bytes + len rest + 1) 2); [lia |].
  change (Z.to_nat 0) with 0%nat. cbn [nth].
  rewrite Hhi, Hlo, Z.eqb_refl. cbn [negb].
  assert (Hchk : negb (t =? PUBLISH) && negb (nib =? defaultFlags t) = false).
  { destruct Hfl as [-> | ->]; rewrite Z.eqb_refl; cbn [negb];
      [reflexivity | apply andb_false_r]. }
  rewrite Hchk.
  change (Z.to_nat (0 + 1)) with 1%nat. cbn [skipn].
  assert (H63 : maxRemainingLength < 2 ^ 63) by reflexivity.
  unfold bytes at 1. rewrite Uvarint_uvarint_bytes by lia. fold bytes.
  destruct (Z.leb_spec (len bytes) 0); [lia |].
  rewrite to_int_small by lia.
  replace (Z.to_nat (0 + 1 + len bytes)) with (S (length bytes))
    by (unfold len; lia).
  cbn [skipn]. rewrite skipn_app, skipn_all, Nat.sub_diag. cbn [skipn app].
  destruct (Z.ltb_spec (len rest) rl); [lia |].
  replace (0 + 1 + len bytes) with (headerLen rl) by lia.
  reflexivity.
Qed.

End HeaderProperties.

(** * The codec on the MQTT table: instances and concrete runs *)

(** C7 (does not hold on the code). [headerDecode] bounds the remaining
    length it returns only by the bytes left in the buffer: the ten-byte
    varint of [2^64 - 1] is read by [Uvarint], converted to [int] as [-1],
    and returned without an error, so the result is neither non-negative
    nor checked against 268435455 as [headerEncode] checks it. *)
Theorem headerDecode_negative_remaining_length :
  MQTT.decode
    [0x30; 0xff; 0xff; 0xff; 0xff; 0xff; 0xff; 0xff; 0xff; 0xff; 0x01]
    MQTT.PUBLISH
  = (11, 0, -1, None).
Proof. vm_compute. reflexivity. Qed.

(** Encoding into a buffer that holds the header alone, then decoding it:
    the decoder rejects the header because the [rl = 1] declared bytes are
    not in the buffer. *)
Lemma headerEncode_headerDecode_header_only :
  MQTT.encode [0; 0] 0 1 2 MQTT.CONNECT = Some ([0x10; 0x01], 2, None)
  /\ MQTT.decode [0x10; 0x01] MQTT.CONNECT
     = (2, 0, 0, Some (RemainingLengthExceedsBuffer 1 0)).
Proof. split; vm_compute; reflexivity. Qed.

(** A legal remaining length and a buffer as large as the header, and
    still an error: the buffer is smaller than the total length [tl]. *)
Lemma headerEncode_fails_on_total_length :
  MQTT.encode [0; 0] 0 0 3 MQTT.CONNECT
  = Some ([0; 0], 0, Some (InsufficientBuffer 3 2))
  /\ 0 <= 0 <= maxRemainingLength
  /\ headerLen 0 <= len [0; 0].
Proof. split; [vm_compute; reflexivity | split; vm_compute; intuition discriminate]. Qed.

(** Padded varints are accepted: remaining length 0 written on two bytes,
    and on five bytes, one more than the wire format allows. *)
Lemma headerDecode_accepts_padded_varint :
  MQTT.decode [0xE0; 0x80; 0x00] MQTT.DISCONNECT = (3, 0, 0, None)
  /\ MQTT.decode [0xE0; 0x80; 0x80; 0x80; 0x80; 0x00] MQTT.DISCONNECT
     = (6, 0, 0, None).
Proof. split; vm_compute; reflexivity. Qed.

(** ** Instances of the theorems *)

Lemma headerEncode_headerDecode_witness :
  exists dst',
    headerEncode MQTT.defaultFlags [0; 0; 0; 0; 0] 0 3 5 MQTT.CONNECT
    = Some (dst', headerLen 3, None)
    /\ headerDecode MQTT.defaultFlags MQTT.PUBLISH dst' MQTT.CONNECT
       = (headerLen 3,
          Z.lor (Z.land (MQTT.defaultFlags MQTT.CONNECT) 0x0f) 0, 3, None).
Proof.
  apply (headerEncode_headerDecode MQTT.defaultFlags MQTT.PUBLISH
           [0; 0; 0; 0; 0] 0 3 5 MQTT.CONNECT).
  - evaluate.
  - evaluate.
  - evaluate.
  - right; reflexivity.
  - evaluate.
  - evaluate.
Defined.

Lemma headerEncode_writes_headerLen_witness :
  exists vs,
    headerEncode MQTT.defaultFlags [9; 9; 9; 9; 9; 9; 9] 0 300 5 MQTT.SUBSCRIBE
    = Some (Z.lor (Z.lor (to_byte (Z.shiftl MQTT.SUBSCRIBE 4))
                         (Z.land (MQTT.defaultFlags MQTT.SUBSCRIBE) 0x0f)) 0
              :: vs ++ skipn (Z.to_nat (headerLen 300)) [9; 9; 9; 9; 9; 9; 9],
            headerLen 300, None)
    /\ is_varint_of vs 300
    /\ len vs = varintLen_spec 300
    /\ headerLen 300 = 1 + varintLen_spec 300.
Proof.
  apply (headerEncode_writes_headerLen MQTT.defaultFlags
           [9; 9; 9; 9; 9; 9; 9] 0 300 5 MQTT.SUBSCRIBE).
  - evaluate.
  - evaluate.
  - evaluate.
Defined.

Lemma headerEncode_fails_iff_witness :
  exists b0 vs,
    firstn (Z.to_nat 3) [130; 172; 2; 9; 9; 9; 9] = b0 :: vs
    /\ b0 = Z.lor (to_byte (Z.shiftl MQTT.SUBSCRIBE 4))
                  (Z.lor (Z.land (MQTT.defaultFlags MQTT.SUBSCRIBE) 0x0f) 0)
    /\ (0 <= MQTT.defaultFlags MQTT.SUBSCRIBE <= 15 ->
        b0 = Z.lor (to_byte (Z.shiftl MQTT.SUBSCRIBE 4))
                   (Z.lor (MQTT.defaultFlags MQTT.SUBSCRIBE) 0))
    /\ is_varint_of vs 300.
Proof.
  apply (proj2 (proj2 (headerEncode_fails_iff MQTT.defaultFlags
                         [9; 9; 9; 9; 9; 9; 9] 0 300 5 MQTT.SUBSCRIBE))).
  evaluate.
Defined.

Lemma headerEncode_error_leaves_dst_witness :
  headerEncode MQTT.defaultFlags [7; 7] 0 0 3 MQTT.CONNECT
  = Some ([7; 7], 0, Some (InsufficientBuffer 3 2))
  /\ (0 = 0 /\ [7; 7] = [7; 7]).
Proof.
  split; [vm_compute; reflexivity |].
  apply (headerEncode_error_leaves_dst MQTT.defaultFlags
           [7; 7] 0 0 3 MQTT.CONNECT [7; 7] 0 (InsufficientBuffer 3 2)).
  evaluate.
Defined.

Lemma headerDecode_short_or_wrong_type_witness :
  decode_fails (headerDecode MQTT.defaultFlags MQTT.PUBLISH [0xE0] MQTT.DISCONNECT)
  /\ decode_fails
       (headerDecode MQTT.defaultFlags MQTT.PUBLISH [0xD0; 0x00] MQTT.DISCONNECT).
Proof.
  split; apply headerDecode_short_or_wrong_type.
  - left; evaluate.
  - right; evaluate.
Defined.

Lemma headerDecode_flags_check_witness :
  decode_fails
    (headerDecode MQTT.defaultFlags MQTT.PUBLISH [0x80; 0x00] MQTT.SUBSCRIBE)
  /\ headerDecode MQTT.defaultFlags MQTT.PUBLISH [0x3d; 0x00] MQTT.PUBLISH
     = (2, Z.land 0x3d 0x0f, 0, None).
Proof.
  destruct (headerDecode_flags_check MQTT.defaultFlags MQTT.PUBLISH)
    as (Hother & _ & Hpublish).
  split.
  - apply Hother; evaluate.
  - apply (Hpublish 0x30 0x3d [0x00] 2 0 0); evaluate.
Defined.

Lemma headerDecode_unterminated_varint_witness :
  decode_fails
    (headerDecode MQTT.defaultFlags MQTT.PUBLISH [0x30; 0xff; 0xff] MQTT.PUBLISH).
Proof.
  apply headerDecode_unterminated_varint.
  cbn [skipn firstn]. repeat constructor; lia.
Defined.


Lemma headerDecode_disconnect_witness :
  headerDecode MQTT.defaultFlags MQTT.PUBLISH [0xE0; 0x00] MQTT.DISCONNECT
  = (2, 0, 0, None)
  /\ decode_fails
       (headerDecode MQTT.defaultFlags MQTT.PUBLISH [0xE0; 0x01] MQTT.DISCONNECT).
Proof.
  apply (headerDecode_disconnect MQTT.defaultFlags MQTT.PUBLISH).
  reflexivity.
Defined.

(** * Further properties of the header codec *)

(** ** [Uvarint] looks at the varint only *)

(** A successful read from position [i] consumes at least one byte. *)
Lemma Uvarint_loop_positive (buf : list Z) :
  forall x s i,
    0 <= i -> 0 < snd (Uvarint_loop buf x s i) ->
    i + 1 <= snd (Uvarint_loop buf x s i).
Proof.
  induction buf as [| b rest IH]; intros x s i Hi; cbn [Uvarint_loop].
  - simpl; lia.
  - destruct (i =? MaxVarintLen64); [simpl; lia |].
    destruct (b <? 0x80).
    + destruct ((i =? MaxVarintLen64 - 1) && (1 <? b)); simpl; lia.
    + intros Hpos.
      specialize (IH (Z.lor x (to_uint64 (Z.shiftl (Z.land b 127) s)))
                     (s + 7) (i + 1) ltac:(lia) Hpos).
      lia.
Qed.

(** The outcome of a successful read is determined by the bytes it
    consumed: any buffer that starts with them gives the same outcome. *)
Lemma Uvarint_loop_prefix (buf : list Z) :
  forall buf' x s i v m,
    0 <= i ->
    Uvarint_loop buf x s i = (v, m) ->
    0 < m ->
    firstn (Z.to_nat (m - i)) buf' = firstn (Z.to_nat (m - i)) buf ->
    Uvarint_loop buf' x s i = (v, m).
Proof.
  induction buf as [| b rest IH]; intros buf' x s i v m Hi Hrun Hm Hpre.
  - cbn [Uvarint_loop] in Hrun. assert (m = 0) by congruence. lia.
  - pose proof (Uvarint_loop_positive (b :: rest) x s i Hi) as Hpos.
    rewrite Hrun in Hpos; cbn [snd] in Hpos. specialize (Hpos Hm).
    replace (Z.to_nat (m - i)) with (S (Z.to_nat (m - (i + 1)))) in Hpre by lia.
    destruct buf' as [| b' rest']; [discriminate Hpre |].
    cbn [firstn] in Hpre.
    assert (Hb : b' = b) by congruence.
    assert (Hrest : firstn (Z.to_nat (m - (i + 1))) rest'
                    = firstn (Z.to_nat (m - (i + 1))) rest) by congruence.
    subst b'. cbn [Uvarint_loop] in Hrun |- *.
    destruct (i =? MaxVarintLen64); [exact Hrun |].
    destruct (b <? 0x80); [exact Hrun |].
    eapply IH; [lia | exact Hrun | exact Hm | exact Hrest].
Qed.

Lemma Uvarint_prefix (buf buf' : list Z) (v m : Z) :
  Uvarint buf = (v, m) ->
  0 < m ->
  firstn (Z.to_nat m) buf' = firstn (Z.to_nat m) buf ->
  Uvarint buf' = (v, m).
Proof.
  unfold Uvarint; intros Hrun Hm Hpre.
  apply (Uvarint_loop_prefix buf buf' 0 0 0 v m); try assumption; try lia.
  now rewrite Z.sub_0_r.
Qed.

Lemma Uvarint_app (buf more : list Z) (v m : Z) :
  Uvarint buf = (v, m) -> 0 < m -> Uvarint (buf ++ more) = (v, m).
Proof.
  intros Hrun Hm. apply (Uvarint_prefix buf); [assumption | assumption |].
  pose proof (Uvarint_consumed _ _ _ Hrun) as Hc. unfold len in Hc.
  rewrite firstn_app.
  replace (Z.to_nat m - length buf)%nat with 0%nat by lia.
  cbn [firstn]. apply app_nil_r.
Qed.

Section HeaderStreaming.

Variable defaultFlags : PacketType -> Z.
Variable PUBLISH : PacketType.

(** ** How [headerDecode] depends on its buffer *)

(** [headerDecode] past its type and flags checks, with the varint read. *)
Lemma headerDecode_after_varint (src : list Z) (t : PacketType) (x m : Z) :
  2 <= len src ->
  Z.shiftr (nth 0 src 0) 4 = t ->
  t = PUBLISH \/ Z.land (nth 0 src 0) 0x0f = defaultFlags t ->
  Uvarint (skipn 1 src) = (x, m) ->
  0 < m ->
  headerDecode defaultFlags PUBLISH src t
  = if len src - (1 + m) <? to_int x
    then (1 + m, 0, 0,
          Some (RemainingLengthExceedsBuffer (to_int x) (len src - (1 + m))))
    else (1 + m, Z.land (nth 0 src 0) 0x0f, to_int x, None).
Proof.
  intros Hlen Hty Hfl Hu Hm.
  assert (Hrem : len (skipn (Z.to_nat (0 + 1 + m)) src) = len src - (1 + m)).
  { pose proof (Uvarint_consumed _ _ _ Hu) as Hc.
    rewrite len_skipn in Hc |- *. unfold len in *. lia. }
  unfold headerDecode; cbv zeta.
  destruct (Z.ltb_spec (len src) 2); [lia |].
  change (Z.to_nat 0) with 0%nat. rewrite Hty, Z.eqb_refl. cbn [negb].
  assert (Hchk : negb (t =? PUBLISH)
                 && negb (Z.land (nth 0 src 0) 15 =? defaultFlags t) = false).
  { destruct Hfl as [-> | ->]; rewrite Z.eqb_refl; cbn [negb];
      [reflexivity | apply andb_false_r]. }
  rewrite Hchk.
  change (Z.to_nat (0 + 1)) with 1%nat. rewrite Hu.
  destruct (Z.leb_spec m 0); [lia |].
  rewrite Hrem. reflexivity.
Qed.

(** A result that is a success, or the error of a remaining length beyond
    the buffer, comes from a buffer that passed the type and flags checks
    and holds a complete varint. *)
Lemma headerDecode_varint_read (src : list Z) (t : PacketType)
    (total flags rl : Z) (e : option error) :
  headerDecode defaultFlags PUBLISH src t = (total, flags, rl, e) ->
  match e with
  | None | Some (RemainingLengthExceedsBuffer _ _) => True
  | Some _ => False
  end ->
  exists x m,
    2 <= len src
    /\ Z.shiftr (nth 0 src 0) 4 = t
    /\ (t = PUBLISH \/ Z.land (nth 0 src 0) 0x0f = defaultFlags t)
    /\ Uvarint (skipn 1 src) = (x, m)
    /\ 0 < m.
Proof.
  unfold headerDecode; cbv zeta.
  destruct (Z.ltb_spec (len src) 2) as [Hlt | Hge].
  { intros H He. assert (E : e = Some (InsufficientBuffer 2 (len src)))
      by congruence. subst e; contradiction. }
  change (Z.to_nat 0) with 0%nat.
  destruct (Z.eqb_spec (Z.shiftr (nth 0 src 0) 4) t) as [Hty | Hty]; cbn [negb].
  2: { intros H He.
       assert (E : e = Some (InvalidType (Z.shiftr (nth 0 src 0) 4)))
         by congruence. subst e; contradiction. }
  destruct (negb (t =? PUBLISH)
            && negb (Z.land (nth 0 src 0) 15 =? defaultFlags t)) eqn:Hchk.
  { intros H He.
    assert (E : e = Some (InvalidFlags (defaultFlags t)
                            (Z.land (nth 0 src 0) 15))) by congruence.
    subst e; contradiction. }
  change (Z.to_nat (0 + 1)) with 1%nat.
  destruct (Uvarint (skipn 1 src)) as [x m] eqn:Hu.
  destruct (Z.leb_spec m 0) as [Hm | Hm].
  { intros H He. assert (E : e = Some ErrorReadingRemainingLength)
      by congruence. subst e; contradiction. }
  intros _ _. exists x, m.
  assert (Hfl : t = PUBLISH \/ Z.land (nth 0 src 0) 15 = defaultFlags t).
  { apply andb_false_iff in Hchk. destruct Hchk as [Hp | Hf].
    - left. apply negb_false_iff in Hp. now apply Z.eqb_eq.
    - right. apply negb_false_iff in Hf. now apply Z.eqb_eq. }
  split; [lia |]. split; [exact Hty |]. split; [exact Hfl |].
  split; [reflexivity | exact Hm].
Qed.

(** Two buffers with the same type-and-flags byte and the same varint are
    decoded alike, up to the number of bytes that follow the header. *)
Lemma headerDecode_same_header (src src' : list Z) (t : PacketType)
    (x m : Z) :
  2 <= len src ->
  Z.shiftr (nth 0 src 0) 4 = t ->
  t = PUBLISH \/ Z.land (nth 0 src 0) 0x0f = defaultFlags t ->
  Uvarint (skipn 1 src) = (x, m) ->
  0 < m ->
  firstn (Z.to_nat (1 + m)) src' = firstn (Z.to_nat (1 + m)) src ->
  headerDecode defaultFlags PUBLISH src' t
  = if len src' - (1 + m) <? to_int x
    then (1 + m, 0, 0,
          Some (RemainingLengthExceedsBuffer (to_int x) (len src' - (1 + m))))
    else (1 + m, Z.land (nth 0 src 0) 0x0f, to_int x, None).
Proof.
  intros Hlen Hty Hfl Hu Hm Hpre.
  pose proof (Uvarint_consumed _ _ _ Hu) as Hc.
  destruct src as [| b0 rest].
  { unfold len in Hlen; simpl in Hlen; lia. }
  cbn [skipn] in Hu, Hc. cbn [nth] in *.
  replace (Z.to_nat (1 + m)) with (S (Z.to_nat m)) in Hpre by lia.
  cbn [firstn] in Hpre.
  destruct src' as [| b0' rest']; [discriminate Hpre |].
  cbn [firstn] in Hpre.
  assert (Hb : b0' = b0) by congruence.
  assert (Hrest : firstn (Z.to_nat m) rest' = firstn (Z.to_nat m) rest)
    by congruence.
  subst b0'.
  assert (Hlen' : (Z.to_nat m <= length rest')%nat).
  { apply (f_equal (@length Z)) in Hrest.
    rewrite !length_firstn in Hrest. unfold len in Hc. lia. }
  rewrite (headerDecode_after_varint (b0 :: rest') t x m);
    cbn [nth skipn]; try assumption; try reflexivity.
  - rewrite len_cons. unfold len. lia.
  - apply (Uvarint_prefix rest); assumption.
Qed.

(** X2. A header that decodes successfully still decodes, to the same
    result, when more bytes are appended to the buffer: a packet followed
    in the same buffer by further data is read as it would be alone. *)
Theorem headerDecode_append_success (src more : list Z) (t : PacketType)
    (total flags rl : Z) :
  headerDecode defaultFlags PUBLISH src t = (total, flags, rl, None) ->
  headerDecode defaultFlags PUBLISH (src ++ more) t = (total, flags, rl, None).
Proof.
  intros H.
  destruct (headerDecode_varint_read src t total flags rl None H I)
    as (x & m & Hlen & Hty & Hfl & Hu & Hm).
  pose proof (Uvarint_consumed _ _ _ Hu) as Hc. rewrite len_skipn in Hc.
  rewrite (headerDecode_after_varint src t x m Hlen Hty Hfl Hu Hm) in H.
  rewrite (headerDecode_same_header src (src ++ more) t x m Hlen Hty Hfl Hu Hm).
  - rewrite len_app. pose proof (len_nonneg more).
    destruct (Z.ltb_spec (len src - (1 + m)) (to_int x)); [congruence |].
    destruct (Z.ltb_spec (len src + len more - (1 + m)) (to_int x)); [lia |].
    exact H.
  - rewrite firstn_app.
    replace (Z.to_nat (1 + m) - length src)%nat with 0%nat
      by (unfold len in *; lia).
    cbn [firstn]. apply app_nil_r.
Qed.

(** X3. A buffer rejected because the declared remaining length [rl]
    exceeds the [rem] bytes that follow the header is an incomplete packet:
    once bytes are appended, the same header decodes successfully as soon
    as [rl] bytes follow it, and until then the same error is returned with
    the same count consumed. *)
Theorem headerDecode_append_incomplete (src more : list Z) (t : PacketType)
    (total flags0 rl0 rl rem : Z) :
  headerDecode defaultFlags PUBLISH src t
  = (total, flags0, rl0, Some (RemainingLengthExceedsBuffer rl rem)) ->
  headerDecode defaultFlags PUBLISH (src ++ more) t
  = if rem + len more <? rl
    then (total, 0, 0,
          Some (RemainingLengthExceedsBuffer rl (rem + len more)))
    else (total, Z.land (nth 0 src 0) 0x0f, rl, None).
Proof.
  intros H.
  destruct (headerDecode_varint_read src t total flags0 rl0 _ H I)
    as (x & m & Hlen & Hty & Hfl & Hu & Hm).
  pose proof (Uvarint_consumed _ _ _ Hu) as Hc. rewrite len_skipn in Hc.
  rewrite (headerDecode_after_varint src t x m Hlen Hty Hfl Hu Hm) in H.
  rewrite (headerDecode_same_header src (src ++ more) t x m Hlen Hty Hfl Hu Hm).
  - rewrite len_app.
    destruct (Z.ltb_spec (len src - (1 + m)) (to_int x)); [| congruence].
    assert (Ht : total = 1 + m) by congruence.
    assert (Hr : rl = to_int x) by congruence.
    assert (Hrem : rem = len src - (1 + m)) by congruence.
    subst total rl rem.
    replace (len src + len more - (1 + m))
      with (len src - (1 + m) + len more) by lia.
    reflexivity.
  - rewrite firstn_app.
    replace (Z.to_nat (1 + m) - length src)%nat with 0%nat
      by (unfold len in *; lia).
    cbn [firstn]. apply app_nil_r.
Qed.

(** X4. A wrong packet type and wrong flags are not cured by more data:
    when [headerDecode] rejects a buffer for its type or its flags, it
    rejects every extension of the buffer with the same error. *)
Theorem headerDecode_append_type_flags_error (src more : list Z)
    (t : PacketType) (total flags rl : Z) (e : error) :
  headerDecode defaultFlags PUBLISH src t = (total, flags, rl, Some e) ->
  match e with
  | InvalidType _ | InvalidFlags _ _ => True
  | _ => False
  end ->
  headerDecode defaultFlags PUBLISH (src ++ more) t
  = (total, flags, rl, Some e).
Proof.
  unfold headerDecode; cbv zeta.
  rewrite len_app. pose proof (len_nonneg more) as Hmore.
  destruct (Z.ltb_spec (len src) 2) as [Hlt | Hge].
  { intros H He. assert (E : e = InsufficientBuffer 2 (len src))
      by congruence. subst e; contradiction. }
  destruct (Z.ltb_spec (len src + len more) 2) as [Hlt' | Hge']; [lia |].
  change (Z.to_nat 0) with 0%nat.
  rewrite app_nth1 by (unfold len in Hge; lia).
  destruct (negb (Z.shiftr (nth 0 src 0) 4 =? t)); [tauto |].
  destruct (negb (t =? PUBLISH)
            && negb (Z.land (nth 0 src 0) 15 =? defaultFlags t)); [tauto |].
  change (Z.to_nat (0 + 1)) with 1%nat.
  destruct (Uvarint (skipn 1 src)) as [x m].
  destruct (m <=? 0).
  { intros H He. assert (E : e = ErrorReadingRemainingLength)
      by congruence. subst e; contradiction. }
  destruct (len (skipn (Z.to_nat (0 + 1 + m)) src) <? to_int x).
  - intros H He.
    assert (E : e = RemainingLengthExceedsBuffer (to_int x)
                      (len (skipn (Z.to_nat (0 + 1 + m)) src)))
      by congruence.
    subst e; contradiction.
  - intros H; congruence.
Qed.

(** X5. [headerDecode] does not look at the payload: after a successful
    decode, replacing the bytes that follow the header by any bytes, at
    least [rl] of them, gives the same result. *)
Theorem headerDecode_payload_irrelevant (src payload : list Z)
    (t : PacketType) (total flags rl : Z) :
  headerDecode defaultFlags PUBLISH src t = (total, flags, rl, None) ->
  rl <= len payload ->
  headerDecode defaultFlags PUBLISH (firstn (Z.to_nat total) src ++ payload) t
  = (total, flags, rl, None).
Proof.
  intros H Hpay.
  destruct (headerDecode_varint_read src t total flags rl None H I)
    as (x & m & Hlen & Hty & Hfl & Hu & Hm).
  pose proof (Uvarint_consumed _ _ _ Hu) as Hc. rewrite len_skipn in Hc.
  rewrite (headerDecode_after_varint src t x m Hlen Hty Hfl Hu Hm) in H.
  destruct (Z.ltb_spec (len src - (1 + m)) (to_int x)); [congruence |].
  assert (Ht : total = 1 + m) by congruence.
  assert (Hr : rl = to_int x) by congruence.
  assert (Hf : flags = Z.land (nth 0 src 0) 15) by congruence.
  subst total rl flags.
  assert (Hfl1 : length (firstn (Z.to_nat (1 + m)) src) = Z.to_nat (1 + m)).
  { apply firstn_length_le. unfold len in *. lia. }
  rewrite (headerDecode_same_header src _ t x m Hlen Hty Hfl Hu Hm).
  - rewrite len_app. unfold len at 1. rewrite Hfl1.
    destruct (Z.ltb_spec (Z.of_nat (Z.to_nat (1 + m)) + len payload - (1 + m))
                (to_int x)); [lia | reflexivity].
  - rewrite firstn_app, Hfl1, Nat.sub_diag, firstn_firstn, Nat.min_id.
    cbn [firstn]. apply app_nil_r.
Qed.

End HeaderStreaming.

(** ** Any well-formed varint is read; the one written is the shortest *)

Lemma pow2_7_succ (k : Z) : 0 <= k -> 2 ^ (7 * (k + 1)) = 128 * 2 ^ (7 * k).
Proof.
  intros Hk. replace (7 * (k + 1)) with (7 + 7 * k) by lia.
  rewrite Z.pow_add_r by lia. reflexivity.
Qed.

Lemma varint_value_bound (bs : list Z) :
  0 <= varint_value bs < 2 ^ (7 * len bs).
Proof.
  induction bs as [| b rest IH].
  - change (2 ^ (7 * len [])) with 1. simpl. lia.
  - cbn [varint_value]. rewrite len_cons, pow2_7_succ by apply len_nonneg.
    rewrite land_0x7f.
    pose proof (Z.mod_pos_bound b 128 ltac:(lia)). lia.
Qed.

Lemma testbit_7_byte (b : Z) :
  is_byte b -> Z.testbit b 7 = negb (b <? 0x80).
Proof.
  unfold is_byte; intros Hb. destruct (Z.ltb_spec b 0x80); cbn [negb].
  - apply testbit_7_low; lia.
  - apply testbit_7_high; lia.
Qed.

(** [Uvarint] on any base-128 varint that ends by the ninth byte: the
    groups are added to those read so far and exactly the varint is
    consumed. *)
Lemma Uvarint_loop_varint (bs : list Z) :
  forall (acc i : Z) (rest : list Z),
    Forall is_byte bs ->
    continuation_bits bs = true ->
    0 <= i ->
    i + len bs <= 9 ->
    0 <= acc < 2 ^ (7 * i) ->
    Uvarint_loop (bs ++ rest) acc (7 * i) i
    = (acc + varint_value bs * 2 ^ (7 * i), i + len bs).
Proof.
  induction bs as [| b tl IH]; intros acc i rest Hbytes Hcont Hi Hfit Hacc.
  - discriminate Hcont.
  - inversion Hbytes as [| ? ? Hb Htl]; subst.
    rewrite len_cons in Hfit. pose proof (len_nonneg tl) as Hlen.
    assert (Hpow : 0 < 2 ^ (7 * i)) by (apply Z.pow_pos_nonneg; lia).
    assert (Hle : 2 ^ (7 * i) <= 2 ^ 56) by (apply Z.pow_le_mono_r; lia).
    assert (H56 : 2 ^ 56 * 128 = 2 ^ 63) by reflexivity.
    assert (H64 : 2 ^ 64 = 2 * 2 ^ 63) by reflexivity.
    pose proof (testbit_7_byte b Hb) as Hbit.
    cbn [app Uvarint_loop]; unfold MaxVarintLen64.
    destruct (Z.eqb_spec i 10); [lia |].
    unfold is_byte in Hb.
    destruct tl as [| b2 tl'].
    + cbn [continuation_bits] in Hcont. rewrite Hbit in Hcont.
      destruct (Z.ltb_spec b 0x80) as [Hlow | Hhigh]; [| discriminate Hcont].
      destruct (Z.eqb_spec i (10 - 1)); [change (len []) with 0 in Hfit; lia |].
      cbn [andb]. rewrite Z.shiftl_mul_pow2 by lia.
      rewrite to_uint64_small by nia.
      rewrite lor_mul_pow2_add by lia.
      cbn [varint_value]. rewrite land_0x7f, Z.mod_small by lia.
      rewrite len_cons. change (len []) with 0.
      f_equal; lia.
    + change (continuation_bits (b :: b2 :: tl'))
        with (Z.testbit b 7 && continuation_bits (b2 :: tl')) in Hcont.
      apply andb_true_iff in Hcont. destruct Hcont as [Hb7 Hcont].
      rewrite Hbit in Hb7.
      destruct (Z.ltb_spec b 0x80) as [Hlow | Hhigh]; [discriminate Hb7 |].
      rewrite land_0x7f.
      assert (Hr : 0 <= b mod 128 < 128) by (apply Z.mod_pos_bound; lia).
      rewrite Z.shiftl_mul_pow2 by lia.
      rewrite to_uint64_small by nia.
      rewrite lor_mul_pow2_add by lia.
      replace (7 * i + 7) with (7 * (i + 1)) by lia.
      rewrite IH; try assumption; try lia.
      * rewrite pow2_7_succ by lia.
        change (varint_value (b :: b2 :: tl'))
          with (Z.land b 127 + 128 * varint_value (b2 :: tl')).
        rewrite land_0x7f, (len_cons b). f_equal; [ring | lia].
      * rewrite pow2_7_succ by lia. nia.
Qed.

Section HeaderVarint.

Variable defaultFlags : PacketType -> Z.
Variable PUBLISH : PacketType.

(** X6. What [headerDecode] accepts: a byte with the expected type in its
    high nibble and flags that pass the check, followed by any base-128
    varint of at most nine bytes, minimal or padded, and by at least as
    many payload bytes as the varint denotes.  It returns the length of
    that header, the flags nibble and the value of the varint. *)
Theorem headerDecode_reads_any_varint (b0 : Z) (vs payload : list Z)
    (t : PacketType) (v : Z) :
  Z.shiftr b0 4 = t ->
  t = PUBLISH \/ Z.land b0 0x0f = defaultFlags t ->
  is_varint_of vs v ->
  len vs <= 9 ->
  v <= len payload ->
  headerDecode defaultFlags PUBLISH (b0 :: vs ++ payload) t
  = (1 + len vs, Z.land b0 0x0f, v, None).
Proof.
  intros Hty Hfl (Hbytes & Hcont & Hval) Hnine Hpay.
  assert (Hpos : 0 < len vs).
  { destruct vs; [discriminate Hcont | rewrite len_cons].
    pose proof (len_nonneg vs). lia. }
  pose proof (varint_value_bound vs) as Hb. rewrite Hval in Hb.
  assert (Hle : 2 ^ (7 * len vs) <= 2 ^ 63) by (apply Z.pow_le_mono_r; lia).
  assert (Hu : Uvarint (skipn 1 (b0 :: vs ++ payload)) = (v, len vs)).
  { cbn [skipn]. unfold Uvarint.
    pose proof (Uvarint_loop_varint vs 0 0 payload Hbytes Hcont) as H.
    change (7 * 0) with 0 in H. change (2 ^ 0) with 1 in H.
    rewrite H by lia. rewrite Hval. f_equal; lia. }
  rewrite (headerDecode_after_varint defaultFlags PUBLISH _ t v (len vs));
    cbn [nth]; try assumption.
  - rewrite to_int_small by lia.
    rewrite len_cons, len_app.
    destruct (Z.ltb_spec (len vs + len payload + 1 - (1 + len vs)) v);
      [lia | reflexivity].
  - rewrite len_cons, len_app. pose proof (len_nonneg payload). lia.
Qed.

(** X7. The varint [headerEncode] writes has no padding: no base-128
    varint of the same remaining length is shorter, so the count returned
    is at most one more than the length of any of them. *)
Theorem headerEncode_minimal (dst : list Z) (flags rl tl : Z)
    (t : PacketType) (dst' : list Z) (n : Z) (vs : list Z) :
  headerEncode defaultFlags dst flags rl tl t = Some (dst', n, None) ->
  is_varint_of vs rl ->
  n <= 1 + len vs.
Proof.
  intros Henc (_ & Hcont & Hval).
  assert (Hcases :
    (len dst < tl \/ rl < 0 \/ maxRemainingLength < rl
     \/ len dst < headerLen rl)
    \/ (tl <= len dst /\ 0 <= rl <= maxRemainingLength
        /\ headerLen rl <= len dst)) by lia.
  destruct Hcases as [Hbad | (Htl & Hrl & Hhl)].
  { destruct (headerEncode_error defaultFlags dst flags rl tl t Hbad)
      as [e He]. congruence. }
  rewrite (headerEncode_ok defaultFlags dst flags rl tl t Htl Hrl Hhl) in Henc.
  assert (Hn : n = headerLen rl) by congruence.
  rewrite Hn, headerLen_thresholds.
  pose proof (varint_value_bound vs) as Hb. rewrite Hval in Hb.
  unfold varintLen_spec.
  destruct vs as [| a [| b [| c [| d r]]]].
  - discriminate Hcont.
  - change (2 ^ (7 * len [a])) with 128 in Hb.
    destruct (Z.leb_spec rl 127); [reflexivity | lia].
  - change (2 ^ (7 * len [a; b])) with 16384 in Hb.
    change (len [a; b]) with 2.
    repeat match goal with
           | |- context [?p <=? ?q] => destruct (Z.leb_spec p q)
           end; lia.
  - change (2 ^ (7 * len [a; b; c])) with 2097152 in Hb.
    change (len [a; b; c]) with 3.
    repeat match goal with
           | |- context [?p <=? ?q] => destruct (Z.leb_spec p q)
           end; lia.
  - rewrite !len_cons. pose proof (len_nonneg r).
    repeat match goal with
           | |- context [?p <=? ?q] => destruct (Z.leb_spec p q)
           end; lia.
Qed.

End HeaderVarint.

(** ** Decoding, then encoding again *)

(** What [Uvarint] has read, when it succeeds within nine bytes, is a
    base-128 varint of the value it returns. *)
Lemma Uvarint_loop_inv (buf : list Z) :
  forall (acc i x m : Z),
    Forall is_byte buf ->
    0 <= i ->
    0 <= acc < 2 ^ (7 * i) ->
    Uvarint_loop buf acc (7 * i) i = (x, m) ->
    0 < m <= 9 ->
    continuation_bits (firstn (Z.to_nat (m - i)) buf) = true
    /\ x = acc + varint_value (firstn (Z.to_nat (m - i)) buf) * 2 ^ (7 * i)
    /\ len (firstn (Z.to_nat (m - i)) buf) = m - i.
Proof.
  induction buf as [| b rest IH]; intros acc i x m Hbytes Hi Hacc Hrun Hm.
  - cbn [Uvarint_loop] in Hrun. assert (m = 0) by congruence. lia.
  - inversion Hbytes as [| ? ? Hb Hrest]; subst.
    pose proof (Uvarint_loop_positive (b :: rest) acc (7 * i) i Hi) as Hpos.
    rewrite Hrun in Hpos; cbn [snd] in Hpos. specialize (Hpos ltac:(lia)).
    assert (Hpow : 0 < 2 ^ (7 * i)) by (apply Z.pow_pos_nonneg; lia).
    assert (Hle : 2 ^ (7 * i) <= 2 ^ 56) by (apply Z.pow_le_mono_r; lia).
    assert (H56 : 2 ^ 56 * 128 = 2 ^ 63) by reflexivity.
    assert (H64 : 2 ^ 64 = 2 * 2 ^ 63) by reflexivity.
    pose proof (testbit_7_byte b Hb) as Hbit. unfold is_byte in Hb.
    replace (Z.to_nat (m - i)) with (S (Z.to_nat (m - (i + 1)))) by lia.
    cbn [firstn]. cbn [Uvarint_loop] in Hrun. unfold MaxVarintLen64 in Hrun.
    destruct (Z.eqb_spec i 10); [lia |].
    destruct (Z.ltb_spec b 0x80) as [Hlow | Hhigh].
    + destruct ((i =? 10 - 1) && (1 <? b)).
      { assert (m = - (i + 1)) by congruence. lia. }
      assert (Hm1 : m = i + 1) by congruence.
      replace (Z.to_nat (m - (i + 1))) with 0%nat by lia.
      cbn [firstn continuation_bits varint_value].
      rewrite Hbit, land_0x7f, Z.mod_small by lia.
      rewrite Z.shiftl_mul_pow2 in Hrun by lia.
      rewrite to_uint64_small in Hrun by nia.
      rewrite lor_mul_pow2_add in Hrun by lia.
      destruct (Z.ltb_spec b 128); [| lia].
      split; [reflexivity |].
      split; [assert (x = acc + b * 2 ^ (7 * i)) by congruence; lia |].
      rewrite len_cons. change (len []) with 0. lia.
    + rewrite land_0x7f in Hrun.
      assert (Hr : 0 <= b mod 128 < 128) by (apply Z.mod_pos_bound; lia).
      pose proof (Uvarint_loop_positive rest
                    (Z.lor acc (to_uint64 (Z.shiftl (b mod 128) (7 * i))))
                    (7 * i + 7) (i + 1) ltac:(lia)) as Hpos'.
      rewrite Hrun in Hpos'; cbn [snd] in Hpos'. specialize (Hpos' ltac:(lia)).
      rewrite Z.shiftl_mul_pow2 in Hrun by lia.
      rewrite to_uint64_small in Hrun by nia.
      rewrite lor_mul_pow2_add in Hrun by lia.
      replace (7 * i + 7) with (7 * (i + 1)) in Hrun by lia.
      destruct (IH (acc + b mod 128 * 2 ^ (7 * i)) (i + 1) x m Hrest
                   ltac:(lia) ltac:(rewrite pow2_7_succ by lia; nia)
                   Hrun Hm) as (Hcont & Hval & Hlen).
      remember (firstn (Z.to_nat (m - (i + 1))) rest) as l eqn:El.
      destruct l as [| c l']; [discriminate Hcont |].
      split; [| split].
      * change (continuation_bits (b :: c :: l'))
          with (Z.testbit b 7 && continuation_bits (c :: l')).
        rewrite Hbit, Hcont. destruct (Z.ltb_spec b 128); [lia | reflexivity].
      * change (varint_value (b :: c :: l'))
          with (Z.land b 127 + 128 * varint_value (c :: l')).
        rewrite land_0x7f, Hval, pow2_7_succ by lia. ring.
      * rewrite len_cons, Hlen. lia.
Qed.

(** A base-128 varint is determined by its value and its length. *)
Lemma varint_unique (vs : list Z) :
  forall ws : list Z,
    Forall is_byte vs -> Forall is_byte ws ->
    continuation_bits vs = true -> continuation_bits ws = true ->
    length vs = length ws ->
    varint_value vs = varint_value ws ->
    vs = ws.
Proof.
  induction vs as [| a vs IH]; intros ws Hvs Hws Hcv Hcw Hlen Hval.
  - discriminate Hcv.
  - destruct ws as [| b ws]; [discriminate Hlen |].
    inversion Hvs as [| ? ? Ha Hvs']; inversion Hws as [| ? ? Hb Hws']; subst.
    pose proof (testbit_7_byte a Ha) as Hbita.
    pose proof (testbit_7_byte b Hb) as Hbitb.
    unfold is_byte in Ha, Hb.
    cbn [varint_value] in Hval. rewrite !land_0x7f in Hval.
    assert (Hlow : a mod 128 = b mod 128
                   /\ varint_value vs = varint_value ws)
      by (Z.to_euclidean_division_equations; lia).
    destruct Hlow as [Hlow Htl].
    destruct vs as [| a2 vs]; destruct ws as [| b2 ws]; try discriminate Hlen.
    + cbn [continuation_bits] in Hcv, Hcw. rewrite Hbita in Hcv.
      rewrite Hbitb in Hcw.
      destruct (Z.ltb_spec a 128); [| discriminate Hcv].
      destruct (Z.ltb_spec b 128); [| discriminate Hcw].
      f_equal. rewrite !Z.mod_small in Hlow by lia. exact Hlow.
    + change (continuation_bits (a :: a2 :: vs))
        with (Z.testbit a 7 && continuation_bits (a2 :: vs)) in Hcv.
      change (continuation_bits (b :: b2 :: ws))
        with (Z.testbit b 7 && continuation_bits (b2 :: ws)) in Hcw.
      apply andb_true_iff in Hcv. destruct Hcv as [Ha7 Hcv].
      apply andb_true_iff in Hcw. destruct Hcw as [Hb7 Hcw].
      rewrite Hbita in Ha7. rewrite Hbitb in Hb7.
      destruct (Z.ltb_spec a 128); [discriminate Ha7 |].
      destruct (Z.ltb_spec b 128); [discriminate Hb7 |].
      f_equal.
      * Z.to_euclidean_division_equations; lia.
      * apply IH; try assumption. simpl in Hlen |- *. lia.
Qed.

Lemma Forall_firstn_bytes (n : nat) (s : list Z) :
  Forall is_byte s -> Forall is_byte (firstn n s).
Proof.
  revert n; induction s as [| b s IH]; intros [| n] H; cbn [firstn];
    try constructor; inversion H; subst; auto.
Qed.

Section HeaderReencode.

Variable defaultFlags : PacketType -> Z.
Variable PUBLISH : PacketType.

(** X8. Decoding and encoding again: when a buffer of bytes decodes
    successfully and its header has the length [headerLen] gives for the
    decoded remaining length (the varint is not padded), encoding the
    decoded flags and remaining length for the same type into that buffer
    succeeds, returns the count the decoder consumed and leaves the buffer
    as it was.  For PUBLISH the decoded flags are to include the low nibble
    of the type's default flags, which [headerEncode] always sets. *)
Theorem headerDecode_headerEncode (src : list Z) (t : PacketType)
    (total flags rl tl : Z) :
  Forall is_byte src ->
  headerDecode defaultFlags PUBLISH src t = (total, flags, rl, None) ->
  total = headerLen rl ->
  (t = PUBLISH -> Z.lor (Z.land (defaultFlags t) 0x0f) flags = flags) ->
  tl <= len src ->
  headerEncode defaultFlags src flags rl tl t = Some (src, total, None).
Proof.
  intros Hbytes H Hmin Hpub Htl.
  destruct (headerDecode_varint_read defaultFlags PUBLISH src t total flags rl
              None H I) as (x & m & Hlen & Hty & Hfl & Hu & Hm).
  pose proof (Uvarint_consumed _ _ _ Hu) as Hc. rewrite len_skipn in Hc.
  rewrite (headerDecode_after_varint defaultFlags PUBLISH src t x m
             Hlen Hty Hfl Hu Hm) in H.
  destruct (Z.ltb_spec (len src - (1 + m)) (to_int x)); [congruence |].
  assert (Ht : total = 1 + m) by congruence.
  assert (Hr : rl = to_int x) by congruence.
  assert (Hf : flags = Z.land (nth 0 src 0) 15) by congruence.
  clear H.
  destruct src as [| b0 rest].
  { unfold len in Hlen; simpl in Hlen; lia. }
  cbn [nth skipn] in *.
  apply Forall_cons_iff in Hbytes. destruct Hbytes as [Hb0 Hrest].
  (* the varint that was read *)
  assert (Hm4 : m <= 4).
  { pose proof (headerLen_thresholds rl) as Hth. unfold varintLen_spec in Hth.
    repeat match type of Hth with
           | context [?p <=? ?q] => destruct (p <=? q)
           end; lia. }
  destruct (Uvarint_loop_inv rest 0 0 x m Hrest ltac:(lia)
              ltac:(change (2 ^ (7 * 0)) with 1; lia) Hu ltac:(lia))
    as (Hcont & Hval & Hvlen).
  rewrite Z.sub_0_r in Hcont, Hval, Hvlen.
  change (2 ^ (7 * 0)) with 1 in Hval.
  set (vs := firstn (Z.to_nat m) rest) in *.
  pose proof (varint_value_bound vs) as Hvb. rewrite Hvlen in Hvb.
  assert (Hp28 : 2 ^ (7 * m) <= 2 ^ 28) by (apply Z.pow_le_mono_r; lia).
  assert (H28 : 2 ^ 28 = maxRemainingLength + 1) by reflexivity.
  assert (H63 : 2 ^ 28 < 2 ^ 63) by reflexivity.
  assert (Hx : x = varint_value vs) by lia.
  rewrite to_int_small in Hr by lia.
  assert (Hrl : 0 <= rl <= maxRemainingLength) by lia.
  (* the bytes the encoder writes *)
  assert (Hsame : uvarint_bytes 10 rl = vs).
  { destruct (uvarint_bytes_is_varint 9 rl) as (Hub & Huc & Huv).
    { change (128 * 2 ^ (7 * Z.of_nat 9)) with 1180591620717411303424.
      unfold maxRemainingLength in Hrl. lia. }
    apply varint_unique; try assumption.
    - apply Forall_firstn_bytes; assumption.
    - pose proof (uvarint_bytes_len rl Hrl) as Hul. unfold len in Hul, Hvlen.
      lia.
    - rewrite Huv. lia. }
  assert (Hfirst : typeAndFlags defaultFlags flags t = b0).
  { unfold is_byte in Hb0. rewrite shiftr_4 in Hty. rewrite land_0x0f in Hf, Hfl.
    assert (Htr : 0 <= t <= 15) by (Z.to_euclidean_division_equations; lia).
    assert (Hfr : 0 <= flags < 16) by (Z.to_euclidean_division_equations; lia).
    assert (Hadd : Z.lor (Z.land (defaultFlags t) 15) flags = flags).
    { destruct (Z.eq_dec t PUBLISH) as [E | E]; [now apply Hpub |].
      destruct Hfl as [E' | E']; [contradiction |].
      rewrite <- E', <- Hf, land_0x0f, Z.mod_small by lia.
      apply Z.lor_diag. }
    unfold typeAndFlags. rewrite <- Z.lor_assoc, Hadd.
    rewrite Z.shiftl_mul_pow2 by lia. unfold to_byte.
    rewrite Z.mod_small by (change (2 ^ 4) with 16; lia).
    rewrite Z.lor_comm, lor_mul_pow2_add by (change (2 ^ 4) with 16; lia).
    change (2 ^ 4) with 16. Z.to_euclidean_division_equations; lia. }
  rewrite headerEncode_ok; [| assumption | assumption |].
  - rewrite Hfirst, Hsame.
    replace (Z.to_nat (headerLen rl)) with (S (Z.to_nat m)) by lia.
    cbn [skipn]. unfold vs. rewrite firstn_skipn.
    rewrite <- Hmin, Ht. reflexivity.
  - rewrite <- Hmin, Ht. unfold len in *. lia.
Qed.

End HeaderReencode.

Section HeaderBound.

Variable defaultFlags : PacketType -> Z.
Variable PUBLISH : PacketType.

(** X9. The bound of the wire format holds for headers of the wire
    format's size: when a buffer of bytes decodes successfully and the
    header consumed is at most five bytes long (a varint of at most four
    bytes), the remaining length returned lies between 0 and 268435455. *)
Theorem headerDecode_short_header_bounded (src : list Z) (t : PacketType)
    (total flags rl : Z) :
  Forall is_byte src ->
  headerDecode defaultFlags PUBLISH src t = (total, flags, rl, None) ->
  total <= 5 ->
  0 <= rl <= maxRemainingLength.
Proof.
  intros Hbytes H Hfive.
  destruct (headerDecode_varint_read defaultFlags PUBLISH src t total flags rl
              None H I) as (x & m & Hlen & Hty & Hfl & Hu & Hm).
  rewrite (headerDecode_after_varint defaultFlags PUBLISH src t x m
             Hlen Hty Hfl Hu Hm) in H.
  destruct (Z.ltb_spec (len src - (1 + m)) (to_int x)); [congruence |].
  assert (Ht : total = 1 + m) by congruence.
  assert (Hr : rl = to_int x) by congruence.
  clear H.
  destruct src as [| b0 rest].
  { unfold len in Hlen; simpl in Hlen; lia. }
  cbn [skipn] in Hu.
  apply Forall_cons_iff in Hbytes. destruct Hbytes as [_ Hrest].
  destruct (Uvarint_loop_inv rest 0 0 x m Hrest ltac:(lia)
              ltac:(change (2 ^ (7 * 0)) with 1; lia) Hu ltac:(lia))
    as (_ & Hval & Hvlen).
  rewrite Z.sub_0_r in Hval, Hvlen. change (2 ^ (7 * 0)) with 1 in Hval.
  pose proof (varint_value_bound (firstn (Z.to_nat m) rest)) as Hvb.
  rewrite Hvlen in Hvb.
  assert (Hp28 : 2 ^ (7 * m) <= 2 ^ 28) by (apply Z.pow_le_mono_r; lia).
  assert (H28 : 2 ^ 28 = maxRemainingLength + 1) by reflexivity.
  assert (H63 : 2 ^ 28 < 2 ^ 63) by reflexivity.
  rewrite to_int_small in Hr by lia. lia.
Qed.

End HeaderBound.

Section HeaderOverwrite.

Variable defaultFlags : PacketType -> Z.

(** X10. Encoding is idempotent on the buffer: encoding the same header
    again into the buffer a successful [headerEncode] produced succeeds
    with the same count and leaves that buffer unchanged, whatever the
    buffer held before the first call. *)
Theorem headerEncode_idempotent (dst : list Z) (flags rl tl : Z)
    (t : PacketType) (dst' : list Z) (n : Z) :
  headerEncode defaultFlags dst flags rl tl t = Some (dst', n, None) ->
  headerEncode defaultFlags dst' flags rl tl t = Some (dst', n, None).
Proof.
  intros Henc.
  assert (Hcases :
    (len dst < tl \/ rl < 0 \/ maxRemainingLength < rl
     \/ len dst < headerLen rl)
    \/ (tl <= len dst /\ 0 <= rl <= maxRemainingLength
        /\ headerLen rl <= len dst)) by lia.
  destruct Hcases as [Hbad | (Htl & Hrl & Hhl)].
  { destruct (headerEncode_error defaultFlags dst flags rl tl t Hbad)
      as [e He]. congruence. }
  rewrite (headerEncode_ok defaultFlags dst flags rl tl t Htl Hrl Hhl) in Henc.
  assert (Hd : dst' = typeAndFlags defaultFlags flags t
                        :: uvarint_bytes 10 rl
                           ++ skipn (Z.to_nat (headerLen rl)) dst)
    by congruence.
  assert (Hn : n = headerLen rl) by congruence.
  clear Henc.
  pose proof (uvarint_bytes_len rl Hrl) as Hul.
  assert (Hlen' : len dst' = len dst).
  { rewrite Hd, len_cons, len_app, len_skipn. unfold len in *. lia. }
  assert (Hskip : skipn (Z.to_nat (headerLen rl)) dst'
                  = skipn (Z.to_nat (headerLen rl)) dst).
  { rewrite Hd at 1.
    replace (Z.to_nat (headerLen rl))
      with (S (length (uvarint_bytes 10 rl))) at 1
      by (unfold len in Hul; lia).
    cbn [skipn]. rewrite skipn_app, skipn_all, Nat.sub_diag.
    reflexivity. }
  rewrite headerEncode_ok by lia.
  rewrite Hskip, <- Hd, Hn. reflexivity.
Qed.

End HeaderOverwrite.

(** ** Instances of the further properties *)

Lemma headerDecode_success_bounds_witness :
  headerDecode MQTT.defaultFlags MQTT.PUBLISH [0x30; 0x02; 7; 7; 9]
    MQTT.PUBLISH
  = (2, 0, 2, None)
  /\ (2 <= 2 <= len [0x30; 0x02; 7; 7; 9]
      /\ - 2 ^ 63 <= 2 <= len [0x30; 0x02; 7; 7; 9] - 2).
Proof.
  split; [evaluate |].
  apply (headerDecode_success_bounds MQTT.defaultFlags MQTT.PUBLISH
           [0x30; 0x02; 7; 7; 9] MQTT.PUBLISH 2 0 2).
  evaluate.
Defined.

Lemma headerDecode_append_success_witness :
  headerDecode MQTT.defaultFlags MQTT.PUBLISH
    ([0xE0; 0x00] ++ [0x30; 0x00]) MQTT.DISCONNECT
  = (2, 0, 0, None).
Proof.
  apply (headerDecode_append_success MQTT.defaultFlags MQTT.PUBLISH
           [0xE0; 0x00] [0x30; 0x00] MQTT.DISCONNECT 2 0 0).
  evaluate.
Defined.

Lemma headerDecode_append_incomplete_witness :
  headerDecode MQTT.defaultFlags MQTT.PUBLISH
    ([0x30; 0x02; 7] ++ [8; 9]) MQTT.PUBLISH
  = if 1 + len [8; 9] <? 2
    then (2, 0, 0, Some (RemainingLengthExceedsBuffer 2 (1 + len [8; 9])))
    else (2, Z.land (nth 0 [0x30; 0x02; 7] 0) 0x0f, 2, None).
Proof.
  apply (headerDecode_append_incomplete MQTT.defaultFlags MQTT.PUBLISH
           [0x30; 0x02; 7] [8; 9] MQTT.PUBLISH 2 0 0 2 1).
  evaluate.
Defined.

Lemma headerDecode_append_type_flags_error_witness :
  headerDecode MQTT.defaultFlags MQTT.PUBLISH
    ([0x30; 0x00] ++ [0x01]) MQTT.CONNECT
  = (1, 0, 0, Some (InvalidType 3)).
Proof.
  apply (headerDecode_append_type_flags_error MQTT.defaultFlags MQTT.PUBLISH
           [0x30; 0x00] [0x01] MQTT.CONNECT 1 0 0 (InvalidType 3)).
  - evaluate.
  - exact I.
Defined.

Lemma headerDecode_payload_irrelevant_witness :
  headerDecode MQTT.defaultFlags MQTT.PUBLISH
    (firstn (Z.to_nat 2) [0x30; 0x02; 7; 7; 9] ++ [1; 2]) MQTT.PUBLISH
  = (2, 0, 2, None).
Proof.
  apply (headerDecode_payload_irrelevant MQTT.defaultFlags MQTT.PUBLISH
           [0x30; 0x02; 7; 7; 9] [1; 2] MQTT.PUBLISH 2 0 2).
  - evaluate.
  - evaluate.
Defined.

Lemma headerDecode_reads_any_varint_witness :
  headerDecode MQTT.defaultFlags MQTT.PUBLISH
    (0xE0 :: [0x80; 0x00] ++ []) MQTT.DISCONNECT
  = (1 + len [0x80; 0x00], Z.land 0xE0 0x0f, 0, None).
Proof.
  apply (headerDecode_reads_any_varint MQTT.defaultFlags MQTT.PUBLISH
           0xE0 [0x80; 0x00] [] MQTT.DISCONNECT 0).
  - evaluate.
  - right; evaluate.
  - split; [| split; reflexivity].
    repeat constructor; unfold is_byte; lia.
  - evaluate.
  - evaluate.
Defined.

Lemma headerEncode_minimal_witness :
  headerEncode MQTT.defaultFlags [9; 9; 9; 9] 0 300 3 MQTT.SUBSCRIBE
  = Some ([0x82; 0xac; 0x02; 9], 3, None)
  /\ 3 <= 1 + len [0xac; 0x02].
Proof.
  split; [evaluate |].
  apply (headerEncode_minimal MQTT.defaultFlags [9; 9; 9; 9] 0 300 3
           MQTT.SUBSCRIBE [0x82; 0xac; 0x02; 9] 3 [0xac; 0x02]).
  - evaluate.
  - split; [| split; reflexivity].
    repeat constructor; unfold is_byte; lia.
Defined.

Lemma headerDecode_headerEncode_witness :
  headerEncode MQTT.defaultFlags [0x30; 0x02; 7; 7] 0 2 4 MQTT.PUBLISH
  = Some ([0x30; 0x02; 7; 7], 2, None).
Proof.
  apply (headerDecode_headerEncode MQTT.defaultFlags MQTT.PUBLISH
           [0x30; 0x02; 7; 7] MQTT.PUBLISH 2 0 2 4).
  - repeat constructor; unfold is_byte; lia.
  - evaluate.
  - evaluate.
  - intros _; reflexivity.
  - evaluate.
Defined.

Lemma headerDecode_short_header_bounded_witness :
  headerDecode MQTT.defaultFlags MQTT.PUBLISH [0x30; 0x02; 7; 7] MQTT.PUBLISH
  = (2, 0, 2, None)
  /\ 0 <= 2 <= maxRemainingLength.
Proof.
  split; [evaluate |].
  apply (headerDecode_short_header_bounded MQTT.defaultFlags MQTT.PUBLISH
           [0x30; 0x02; 7; 7] MQTT.PUBLISH 2 0 2).
  - repeat constructor; unfold is_byte; lia.
  - evaluate.
  - evaluate.
Defined.

Lemma headerEncode_idempotent_witness :
  headerEncode MQTT.defaultFlags [0x82; 0xac; 0x02; 9] 0 300 3 MQTT.SUBSCRIBE
  = Some ([0x82; 0xac; 0x02; 9], 3, None).
Proof.
  apply (headerEncode_idempotent MQTT.defaultFlags [9; 9; 9; 9] 0 300 3
           MQTT.SUBSCRIBE [0x82; 0xac; 0x02; 9] 3).
  evaluate.
Defined.
